(** * mopidy.mpd.protocol: request tokenizer and handler registration

    A shallow embedding of [mopidy/mpd/protocol/__init__.py]:

    - the three regular expressions of the module ([WORD_RE], [PARAM_RE],
      [UNESCAPE_RE]) and the one used by [handle_request], run by a small
      backtracking matcher that follows the search order of Python's [re];
    - [tokenize], with its [while remainder:] loop;
    - [handle_request], acting on the two module-level tables
      [mpd_commands] (a set) and [request_handlers] (a dict).

    A character is its code point; a string is a list of characters.
    The patterns are written as syntax trees, one constructor for each
    construct of the pattern source. *)

From stdpp Require Import gmap strings list.
From Stdlib Require Import NArith Lia.

Definition char := N.
Bind Scope N_scope with char.
Definition str := list char.

(** Literals: the code points of an ASCII string. *)
Definition of_string (s : string) : str :=
  map Ascii.N_of_ascii (String.list_ascii_of_string s).
Arguments of_string s%_string.

Definition TAB : char := 9%N.
Definition NEWLINE : char := 10%N.
Definition SPACE : char := 32%N.
Definition DQUOTE : char := 34%N.
Definition BACKSLASH : char := 92%N.

(** ** Regular expressions *)

Module Re.

(** The constructs the module's patterns use.  [Class p] is a single
    character test: a literal, a bracket expression, [\s] or [.]. *)
Inductive regex :=
| Bol                              (* ^ *)
| Eol                              (* $ *)
| Class (p : char -> bool)
| Seq (r1 r2 : regex)
| Alt (r1 r2 : regex)              (* r1|r2, r1 tried first *)
| Star (r : regex)                 (* r*, greedy *)
| Plus (r : regex)                 (* r+, greedy *)
| Group (i : nat) (r : regex).     (* the i-th capturing group *)

(** Captured groups, most recent first. *)
Definition captures := list (nat * str).

Fixpoint group (i : nat) (caps : captures) : option str :=
  match caps with
  | [] => None
  | (j, v) :: caps' => if Nat.eqb i j then Some v else group i caps'
  end.

(** The text consumed between two positions, each position given by the
    input still to be read. *)
Definition consumed (s s' : str) : str := take (length s - length s') s.

Section Matcher.
Context {A : Type}.

(** Greedy repetition of [body]: one more iteration is tried before
    the continuation, and an iteration has to consume input. [n] bounds
    the number of iterations. *)
Fixpoint star_loop
    (body : str -> captures -> (str -> captures -> option A) -> option A)
    (k : str -> captures -> option A)
    (n : nat) (s : str) (caps : captures) : option A :=
  match n with
  | O => k s caps
  | S n' =>
      match body s caps (fun s' caps' =>
              if length s' <? length s then star_loop body k n' s' caps'
              else None) with
      | Some x => Some x
      | None => k s caps
      end
  end.

(** [m whole r s caps k]: match [r] at the position of [whole] where [s]
    remains, then go on with [k]; the first success in backtracking
    order is the answer. *)
Fixpoint m (whole : str) (r : regex) (s : str) (caps : captures)
    (k : str -> captures -> option A) {struct r} : option A :=
  match r with
  | Bol => if length s =? length whole then k s caps else None
  | Eol =>
      match s with
      | [] => k s caps
      | [c] => if (c =? NEWLINE)%N then k s caps else None
      | _ => None
      end
  | Class p =>
      match s with
      | c :: s' => if p c then k s' caps else None
      | [] => None
      end
  | Seq r1 r2 => m whole r1 s caps (fun s' caps' => m whole r2 s' caps' k)
  | Alt r1 r2 =>
      match m whole r1 s caps k with
      | Some x => Some x
      | None => m whole r2 s caps k
      end
  | Star r' => star_loop (m whole r') k (length s) s caps
  | Plus r' =>
      m whole r' s caps (fun s' caps' =>
        star_loop (m whole r') k (length s') s' caps')
  | Group i r' =>
      m whole r' s caps (fun s' caps' =>
        k s' ((i, consumed s s') :: caps'))
  end.
End Matcher.

(** A match object: the groups, the text matched and the input left. *)
Record match_object := { m_caps : captures; m_text : str; m_rest : str }.

Definition match_at (whole : str) (r : regex) (s : str) : option match_object :=
  m whole r s [] (fun s' caps =>
    Some {| m_caps := caps; m_text := consumed s s'; m_rest := s' |}).

(** [re.match]: at the start of the string only. *)
Definition re_match (r : regex) (s : str) : option match_object :=
  match_at s r s.

(** [re.search]: the first position, left to right, where a match starts. *)
Fixpoint search_from (whole : str) (r : regex) (s : str) : option match_object :=
  match match_at whole r s with
  | Some mo => Some mo
  | None =>
      match s with
      | [] => None
      | _ :: s' => search_from whole r s'
      end
  end.

Definition re_search (r : regex) (s : str) : option match_object :=
  search_from s r s.

(** [re.sub] for a pattern that never matches the empty string: matches
    are replaced left to right, the text between them is copied. An empty
    match is treated as no match. *)
Fixpoint sub_from (whole : str) (r : regex) (repl : match_object -> str)
    (fuel : nat) (s : str) : str :=
  match fuel with
  | O => s
  | S fuel' =>
      match s with
      | [] => []
      | c :: s' =>
          match match_at whole r s with
          | Some mo =>
              if length (m_rest mo) <? length s
              then repl mo ++ sub_from whole r repl fuel' (m_rest mo)
              else c :: sub_from whole r repl fuel' s'
          | None => c :: sub_from whole r repl fuel' s'
          end
      end
  end.

Definition re_sub (r : regex) (repl : match_object -> str) (s : str) : str :=
  sub_from s r repl (length s) s.

End Re.

(** ** The tokenizer *)

(** Bracket expressions. *)
Definition between (lo hi : char) (c : char) : bool := (lo <=? c)%N && (c <=? hi)%N.
Definition one_of (l : str) (c : char) : bool := existsb (N.eqb c) l.
Definition none_of (l : str) (c : char) : bool := negb (one_of l c).
Definition lit (a : char) (c : char) : bool := (c =? a)%N.

(** [[a-z]] and [[a-z0-9_]]. *)
Definition lower : char -> bool := between 97 122.
Definition name_char (c : char) : bool :=
  lower c || between 48 57 c || lit 95 c.

(** [\s] in a pattern that is a string: the whitespace characters of
    Unicode, that is 0x09 to 0x0D, 0x1C to 0x20, 0x85, 0xA0, 0x1680,
    0x2000 to 0x200A, 0x2028, 0x2029, 0x202F, 0x205F and 0x3000. *)
Definition whitespace (c : char) : bool :=
  between 9 13 c || between 28 32 c
  || one_of [133; 160; 5760]%N c
  || between 8192 8202 c
  || one_of [8232; 8233; 8239; 8287; 12288]%N c.

(** [.] without [re.DOTALL]: anything but a newline. *)
Definition dot : char -> bool := none_of [NEWLINE].

(** [map(chr, range(0x21))], joined: the characters 0 to 0x20. *)
Definition unprintable : str := map N.of_nat (seq 0 33).

(** The first bracket expression of [PARAM_RE]: none of the characters of
    [unprintable], nor the double quote, nor the backslash. *)
Definition unquoted_char : char -> bool := none_of (unprintable ++ [DQUOTE; BACKSLASH]).

(** The bracket expression of the quoted form: anything but the double
    quote and the backslash. *)
Definition plain_char : char -> bool := none_of [DQUOTE; BACKSLASH].

(** [(?:\s+|$)]: trailing whitespace or end of string. *)
Definition TRAILING : Re.regex :=
  Re.Alt (Re.Plus (Re.Class whitespace)) Re.Eol.

(** The patterns are compiled with [re.VERBOSE]: blanks and comments of the
    pattern source are not part of the expression. *)
Definition WORD_RE : Re.regex :=
  Re.Seq Re.Bol
 (Re.Seq (Re.Group 1 (Re.Seq (Re.Class lower) (Re.Star (Re.Class name_char))))
 (Re.Seq TRAILING
         (Re.Group 2 (Re.Star (Re.Class dot))))).

(** A backslash, any character ([.]) and the plain text after it. *)
Definition ESCAPED : Re.regex :=
  Re.Seq (Re.Class (lit BACKSLASH))
 (Re.Seq (Re.Class dot) (Re.Star (Re.Class plain_char))).

(** What stands between the quotes: plain text, then escaped characters
    each followed by plain text. *)
Definition QUOTED_BODY : Re.regex :=
  Re.Seq (Re.Star (Re.Class plain_char)) (Re.Star ESCAPED).

Definition PARAM_RE : Re.regex :=
  Re.Seq Re.Bol
 (Re.Seq (Re.Alt (Re.Group 1 (Re.Plus (Re.Class unquoted_char)))
                 (Re.Seq (Re.Class (lit DQUOTE))
                 (Re.Seq (Re.Group 2 QUOTED_BODY)
                         (Re.Class (lit DQUOTE)))))
 (Re.Seq TRAILING
         (Re.Group 3 (Re.Star (Re.Class dot))))).

(** [\\(.)]: a backslash escapes any following character. *)
Definition UNESCAPE_RE : Re.regex :=
  Re.Seq (Re.Class (lit BACKSLASH)) (Re.Group 1 (Re.Class dot)).

(** [UNESCAPE_RE.sub(r'\g<1>', quoted)]. *)
Definition unescape (quoted : str) : str :=
  Re.re_sub UNESCAPE_RE
    (fun mo => default [] (Re.group 1 (Re.m_caps mo))) quoted.

(** The exceptions raised: [Exception] with its message by [tokenize],
    [ValueError] by [handle_request] for a pattern already registered, and
    the error of [re.compile]. *)
Inductive exn :=
| Exception (msg : string)
| ValueError
| re_error.

(** The two failures of [tokenize], under the names the specification
    gives them. *)
Definition InvalidCommand : exn := Exception "Invalid command".
Definition InvalidArgument : exn := Exception "Invalid parameter".

(** What a call does: it returns a value or raises. *)

Inductive outcome (A : Type) :=
| Return (a : A)
| Raise (e : exn).
Arguments Return {A} a.
Arguments Raise {A} e.

(** [a or b] on values that are [None] or a string. *)
Definition py_or (a b : option str) : option str :=
  match a with
  | Some (_ :: _) => a
  | _ => b
  end.

(** The [while remainder:] loop, run for at most [fuel] iterations; [None]
    when the loop has not finished by then. A match whose groups do not have
    the shape the source unpacks also gives [None]. *)
Fixpoint tokenize_params (fuel : nat) (result : list str) (remainder : str)
    : option (outcome (list str)) :=
  match remainder with
  | [] => Some (Return result)
  | _ :: _ =>
      match fuel with
      | O => None
      | S fuel' =>
          match Re.re_match PARAM_RE remainder with
          | None => Some (Raise (Exception "Invalid parameter"))
          | Some mo =>
              let unquoted := Re.group 1 (Re.m_caps mo) in
              let quoted := Re.group 2 (Re.m_caps mo) in
              match py_or unquoted (unescape <$> quoted),
                    Re.group 3 (Re.m_caps mo) with
              | Some arg, Some remainder' =>
                  tokenize_params fuel' (result ++ [arg]) remainder'
              | _, _ => None
              end
          end
      end
  end.

Definition tokenize_within (fuel : nat) (line : str) : option (outcome (list str)) :=
  match Re.re_match WORD_RE line with
  | None => Some (Raise (Exception "Invalid command"))
  | Some mo =>
      match Re.group 1 (Re.m_caps mo), Re.group 2 (Re.m_caps mo) with
      | Some command, Some remainder =>
          tokenize_params fuel [command] remainder
      | _, _ => None
      end
  end.

(** One iteration per character of the line is more than the loop uses. *)
Definition tokenize (line : str) : option (outcome (list str)) :=
  tokenize_within (length line) line.

(** ** Registration of request handlers *)

(** [MpdCommand = namedtuple('MpdCommand', ['name', 'auth_required'])]. *)
Record MpdCommand := { name : str; auth_required : bool }.

Global Instance MpdCommand_eq_dec : EqDecision MpdCommand.
Proof. solve_decision. Defined.

Global Instance MpdCommand_countable : Countable MpdCommand.
Proof.
  refine (inj_countable' (fun c => (name c, auth_required c))
            (fun p => {| name := p.1; auth_required := p.2 |}) _).
  by intros [].
Defined.

(** The pattern of [re.search('([a-z_]+)', pattern)]. *)
Definition command_char (c : char) : bool := lower c || lit 95 c.
Definition COMMAND_RE : Re.regex := Re.Group 1 (Re.Plus (Re.Class command_char)).

(** [match.group()] of that search, when there is a match. *)
Definition command_of (pattern : str) : option str :=
  Re.m_text <$> Re.re_search COMMAND_RE pattern.

Section Registry.
(** Handler functions are opaque values; the rewriting of their
    [__doc__] is left out. *)
Context {handler : Type}.

(** Whether [re.compile(pattern, flags=(re.UNICODE | re.VERBOSE))] accepts
    the pattern source; it raises [re.error] otherwise. *)
Variable compiles : str -> bool.

(** A dict keeps its items in insertion order. The key of an entry of
    [request_handlers] is a compiled pattern, the same one for the same
    source and flags: it is represented by the pattern source. *)
Definition dict := list (str * handler).

Fixpoint dict_get (k : str) (d : dict) : option handler :=
  match d with
  | [] => None
  | (k', v) :: d' => if decide (k = k') then Some v else dict_get k d'
  end.

(** [k in d]. *)
Definition dict_has (k : str) (d : dict) : bool :=
  match dict_get k d with Some _ => true | None => false end.

(** [d[k] = v]: a present key keeps its place, a new one goes last. *)
Fixpoint dict_set (k : str) (v : handler) (d : dict) : dict :=
  match d with
  | [] => [(k, v)]
  | (k', v') :: d' =>
      if decide (k = k') then (k, v) :: d' else (k', v') :: dict_set k v d'
  end.

(** The two module-level tables. *)
Record tables := {
  mpd_commands : gset MpdCommand;
  request_handlers : dict
}.

(** [mpd_commands = set()] and [request_handlers = {}]. *)
Definition initial : tables :=
  {| mpd_commands := ∅; request_handlers := [] |}.

(** [handle_request(pattern, auth_required)(func)]: the tables after the
    call, and what the call returns or raises. The command is added to
    the set first, then the pattern is compiled and looked up. *)
Definition handle_request (pattern : str) (auth_required : bool)
    (func : handler) (t : tables) : tables * outcome handler :=
  let commands :=
    match Re.re_search COMMAND_RE pattern with
    | Some mo =>
        {[ {| name := Re.m_text mo; auth_required := auth_required |} ]}
        ∪ mpd_commands t
    | None => mpd_commands t
    end in
  if compiles pattern then
    if dict_has pattern (request_handlers t) then
      ({| mpd_commands := commands; request_handlers := request_handlers t |},
       Raise ValueError)
    else
      ({| mpd_commands := commands;
          request_handlers := dict_set pattern func (request_handlers t) |},
       Return func)
  else
    ({| mpd_commands := commands; request_handlers := request_handlers t |},
     Raise re_error).

(** A run of registration calls, one after the other, whatever each of
    them returns. *)
Definition registration := (str * bool * handler)%type.

Definition register (t : tables) (r : registration) : tables :=
  (handle_request r.1.1 r.1.2 r.2 t).1.

Definition register_all (rs : list registration) (t : tables) : tables :=
  foldl register t rs.

Section Dispatch.
(** The keyword arguments of a match, and the matching of a line by a
    compiled pattern ([None]: no match). *)
Context {kwargs : Type}.
Variable pattern_match : str -> str -> option kwargs.

(** Modelled from the spec: the dispatcher's lookup is not part of this
    module. It iterates the registered entries in registration order
    and returns the first whose pattern matches the command line, with
    the keyword arguments of the match; [None] stands for the failure
    [UnknownCommand]. *)
Fixpoint find_handler (entries : dict) (command_line : str)
    : option (handler * kwargs) :=
  match entries with
  | [] => None
  | (pattern, func) :: entries' =>
      match pattern_match pattern command_line with
      | Some kw => Some (func, kw)
      | None => find_handler entries' command_line
      end
  end.

(** Modelled from the spec: [dispatch], the lookup above on the table of
    registered patterns; the dispatcher is not part of this module. *)
Definition dispatch (t : tables) (command_line : str)
    : option (handler * kwargs) :=
  find_handler (request_handlers t) command_line.
End Dispatch.
End Registry.

Arguments tables : clear implicits.
Arguments dict : clear implicits.
Arguments registration : clear implicits.

(** ** The patterns read by hand

    Direct scanners for what the patterns match; the lemmas of the second
    part show that the matcher computes exactly these. *)

Fixpoint take_while (p : char -> bool) (s : str) : str :=
  match s with
  | c :: s' => if p c then c :: take_while p s' else []
  | [] => []
  end.

Fixpoint drop_while (p : char -> bool) (s : str) : str :=
  match s with
  | c :: s' => if p c then drop_while p s' else s
  | [] => []
  end.

(** What [TRAILING] accepts: the end of the string or a whitespace. *)
Definition delimitedb (s : str) : bool :=
  match s with
  | [] => true
  | c :: _ => whitespace c
  end.

(** What is handed on after the command name or a parameter: the run of
    whitespace is dropped and the text is read up to the end of its line. *)
Definition strip (rest : str) : str :=
  take_while dot (drop_while whitespace rest).

Definition word_split (line : str) : option (str * str) :=
  match line with
  | c :: s =>
      if lower c && delimitedb (drop_while name_char s)
      then Some (c :: take_while name_char s, strip (drop_while name_char s))
      else None
  | [] => None
  end.

(** From just after an opening quote: the text up to the closing quote
    and the text after it. *)
Fixpoint quoted_split (s : str) : option (str * str) :=
  match s with
  | [] => None
  | c :: s' =>
      if lit DQUOTE c then Some ([], s')
      else if lit BACKSLASH c then
        match s' with
        | d :: s'' =>
            if dot d
            then (fun br => (c :: d :: br.1, br.2)) <$> quoted_split s''
            else None
        | [] => None
        end
      else (fun br => (c :: br.1, br.2)) <$> quoted_split s'
  end.

(** What a greedy run of characters of the class [p], followed by
    [TRAILING], takes: the longest run after which the string ends or
    goes on with a whitespace, and what is left; a whitespace that is in
    the class may end the run. *)
Fixpoint longest_delimited (p : char -> bool) (s : str) : option (str * str) :=
  match s with
  | c :: s' =>
      if p c then
        match longest_delimited p s' with
        | Some (run, rest) => Some (c :: run, rest)
        | None => if delimitedb s then Some ([], s) else None
        end
      else if delimitedb s then Some ([], s) else None
  | [] => Some ([], [])
  end.

(** The groups [(unquoted, quoted, remainder)] of a match of [PARAM_RE]. *)
Definition param_split (s : str) : option (option str * option str * str) :=
  match s with
  | [] => None
  | c :: s' =>
      if unquoted_char c then
        match longest_delimited unquoted_char s' with
        | Some (run, rest) => Some (Some (c :: run), None, strip rest)
        | None => None
        end
      else if lit DQUOTE c then
        match quoted_split s' with
        | Some (body, rest) =>
            if delimitedb rest then Some (None, Some body, strip rest) else None
        | None => None
        end
      else None
  end.

(** The substitution of [UNESCAPE_RE] by its group. *)
Fixpoint drop_backslashes (s : str) : str :=
  match s with
  | [] => []
  | c :: s' =>
      if lit BACKSLASH c then
        match s' with
        | d :: s'' =>
            if dot d then d :: drop_backslashes s'' else c :: drop_backslashes s'
        | [] => [c]
        end
      else c :: drop_backslashes s'
  end.

(** One turn of the loop of [tokenize]: the argument appended and the new
    remainder. *)
Definition next_param (s : str) : option (str * str) :=
  match param_split s with
  | Some (Some unquoted, _, remainder) => Some (unquoted, remainder)
  | Some (None, Some quoted, remainder) => Some (drop_backslashes quoted, remainder)
  | _ => None
  end.

(** ** Continuations of the matcher *)

(** A matcher uses its continuation only through the results it gives. *)
Definition extensional {A : Type}
    (body : str -> Re.captures -> (str -> Re.captures -> option A) -> option A)
    : Prop :=
  forall s caps k1 k2,
    (forall s' caps', k1 s' caps' = k2 s' caps') -> body s caps k1 = body s caps k2.

(** A matcher succeeds only through its continuation. *)
Definition strict {A : Type}
    (body : str -> Re.captures -> (str -> Re.captures -> option A) -> option A)
    : Prop :=
  forall s caps, body s caps (fun _ _ => None) = None.

(** Where the text between the quotes ends, the continuation goes on. *)
Definition at_closing_quote {A : Type}
    (k : str -> Re.captures -> option A) (caps : Re.captures) (s : str)
    : option A :=
  match quoted_split s with
  | Some (_, rest) => k (DQUOTE :: rest) caps
  | None => None
  end.

(** ** The vocabulary of the specification *)

(** A command name: [[a-z][a-z0-9_]*], the whole string. *)
Definition command_name (n : str) : bool :=
  match n with
  | c :: n' => lower c && forallb name_char n'
  | [] => false
  end.

(** [sep.join(A)]. *)
Fixpoint join (sep : str) (A : list str) : str :=
  match A with
  | [] => []
  | a :: A' =>
      match A' with
      | [] => a
      | _ :: _ => a ++ sep ++ join sep A'
      end
  end.

(** Followed by whitespace or by the end of the input. *)
Definition delimited (s : str) : Prop :=
  s = [] \/ exists c s', s = c :: s' /\ whitespace c = true.

(** A character of ordinal value below 0x20. *)
Definition control (c : char) : bool := (c <? 32)%N.

(** Printable, and neither whitespace nor the double quote nor the
    backslash. *)
Definition bare_char (c : char) : bool :=
  negb (control c) && negb (whitespace c)
  && negb (lit DQUOTE c) && negb (lit BACKSLASH c).

Definition bare_token (t : str) : Prop :=
  t <> [] /\ forallb bare_char t = true.

(** The content of a quoted token: characters other than the double quote
    and the backslash, and backslashes each followed by a character. *)
Inductive escaped_text : str -> Prop :=
| escaped_nil : escaped_text []
| escaped_plain c s :
    c <> DQUOTE -> c <> BACKSLASH -> escaped_text s -> escaped_text (c :: s)
| escaped_pair d s :
    d <> NEWLINE -> escaped_text s -> escaped_text (BACKSLASH :: d :: s).

(** Unescaping in the words of the specification: every backslash is
    removed and the following character is taken literally. *)
Fixpoint unescape_spec (s : str) : str :=
  match s with
  | [] => []
  | c :: s' =>
      if (c =? BACKSLASH)%N then
        match s' with
        | d :: s'' => d :: unescape_spec s''
        | [] => []
        end
      else c :: unescape_spec s'
  end.

(** A parameter as it is written on the line, and the argument it stands
    for. *)
Inductive param :=
| Bare (t : str)
| Quoted (q : str).

Definition render (p : param) : str :=
  match p with
  | Bare t => t
  | Quoted q => DQUOTE :: q ++ [DQUOTE]
  end.

Definition value (p : param) : str :=
  match p with
  | Bare t => t
  | Quoted q => unescape_spec q
  end.

(** A parameter that can stand among others on a line: an unquoted token
    without whitespace, or quoted text without newline. *)
Definition well_formed (p : param) : Prop :=
  match p with
  | Bare t =>
      t <> [] /\
      forallb (fun c => unquoted_char c && negb (whitespace c)) t = true
  | Quoted q => escaped_text q /\ ~ In NEWLINE q
  end.

(** The first character of a string is not a whitespace. *)
Definition no_leading_space (s : str) : Prop :=
  forall c r, s = c :: r -> whitespace c = false.

(** The characters of an unquoted token, by their ordinal values: above
    0x20, and neither the double quote nor the backslash. *)
Definition bare_class (c : char) : bool :=
  (32 <? c)%N && negb (c =? 34)%N && negb (c =? 92)%N.

(** The same with the bound the comment in [PARAM_RE] gives: not below
    0x20, which lets the space in. *)
Definition bare_class_lt_0x20 (c : char) : bool :=
  negb (c <? 32)%N && negb (c =? 34)%N && negb (c =? 92)%N.

(** The two forms of a parameter, in the words of the specification: a
    non-empty run of characters above 0x20 other than the double quote and
    the backslash, or escaped text between double quotes. *)
Definition token_form (p : param) : Prop :=
  match p with
  | Bare t => t <> [] /\ forallb bare_class t = true
  | Quoted q => escaped_text q
  end.

(** A string begins with a parameter of the unquoted form, or of the
    quoted form, that ends at a whitespace or at the end of the string. *)
Definition unquoted_form (s : str) : Prop :=
  exists t rest, s = render (Bare t) ++ rest /\ token_form (Bare t) /\ delimited rest.

Definition quoted_form (s : str) : Prop :=
  exists q rest, s = render (Quoted q) ++ rest /\ token_form (Quoted q) /\ delimited rest.

(** The line begins with a command name, which ends at a whitespace or at
    the end of the line. *)
Definition begins_with_command (line : str) : Prop :=
  exists n rest, line = n ++ rest /\ command_name n = true /\ delimited rest.

(** Reading one parameter at the head of a string: it has one of the two
    forms, it ends at a whitespace or at the end of the string, and it is
    the longest such. *)
Definition reads (s : str) (p : param) (rest : str) : Prop :=
  s = render p ++ rest /\ token_form p /\ delimited rest /\
  forall p' rest',
    s = render p' ++ rest' -> token_form p' -> delimited rest' ->
    length (render p') <= length (render p).

(** The parameter segments of a line, in the words of the specification:
    what follows the command name and its trailing whitespace, and what
    follows each parameter read and its trailing whitespace. *)
Inductive segment (line : str) : str -> Prop :=
| segment_first n rest :
    line = n ++ rest -> command_name n = true -> delimited rest ->
    segment line (drop_while whitespace rest)
| segment_next s p rest :
    segment line s -> reads s p rest ->
    segment line (drop_while whitespace rest).

(** The segments as the code reads them: the same, except that what is
    handed on after the command name or a parameter stops at the first
    newline. *)
Inductive read_segment (line : str) : str -> Prop :=
| read_first n rest :
    line = n ++ rest -> command_name n = true -> delimited rest ->
    read_segment line (strip rest)
| read_next s p rest :
    read_segment line s -> reads s p rest ->
    read_segment line (strip rest).

(** The remainders the loop of [tokenize] goes through. *)
Inductive reach : str -> str -> Prop :=
| reach_here s : reach s s
| reach_step r arg r' s : next_param r = Some (arg, r') -> reach r' s -> reach r s.

(** A lowercase letter or the underscore, by ordinal value. *)
Definition lowercase_or_underscore (c : char) : Prop :=
  (97 <= c <= 122)%N \/ c = 95%N.

(** The leftmost longest run of lowercase letters and underscores of a
    pattern source. *)
Definition leftmost_run (pattern run : str) : Prop :=
  exists before after,
    pattern = before ++ run ++ after /\
    Forall (fun c => ~ lowercase_or_underscore c) before /\
    run <> [] /\ Forall lowercase_or_underscore run /\
    (forall c r, after = c :: r -> ~ lowercase_or_underscore c).

(** Matching by a pattern that is plain text: it matches the lines that
    begin with it, and has no named group. *)
Definition literal_match (pattern line : str) : option unit :=
  if decide (take (length pattern) line = pattern) then Some tt else None.

(** ** Example tables

    Handlers are numbered; every pattern source compiles. *)

Definition ping_registered : tables nat :=
  (handle_request (fun _ => true) (of_string "ping") true 1%nat initial).1.

Definition list_registered : tables nat :=
  (handle_request (fun _ => true) (of_string "list") true 1%nat initial).1.

Definition listall_registered : tables nat :=
  (handle_request (fun _ => true) (of_string "listall") true 2%nat
     list_registered).1.

(** ** Writing arguments on a line *)

(** A backslash before each double quote and each backslash. *)
Fixpoint escape (a : str) : str :=
  match a with
  | [] => []
  | c :: a' =>
      if lit DQUOTE c || lit BACKSLASH c
      then BACKSLASH :: c :: escape a'
      else c :: escape a'
  end.

(** An argument between double quotes, escaped. *)
Definition quote (a : str) : str := DQUOTE :: escape a ++ [DQUOTE].

(** A whitespace other than the newline. *)
Definition blank (c : char) : bool := whitespace c && dot c.

(** Parameters, each after a run of blanks. *)
Fixpoint spaced (ps : list (str * param)) : str :=
  match ps with
  | [] => []
  | (w, p) :: ps' => w ++ render p ++ spaced ps'
  end.

(** A separator: a non-empty run of blanks that begins with a character
    an unquoted token cannot hold (a space, a tab and the like). *)
Definition separator (w : str) : bool :=
  match w with
  | c :: _ => negb (unquoted_char c) && forallb blank w
  | [] => false
  end.

(** A well-formed parameter after a separator. *)
Definition spaced_ok (wp : str * param) : Prop :=
  separator wp.1 = true /\ well_formed wp.2.


(** The handler of the first registration call, in the order of the
    calls, made for a pattern. *)
Definition first_call {handler : Type} (pattern : str)
    (rs : list (registration handler)) : option handler :=
  snd <$> find (fun r => bool_decide (r.1.1 = pattern)) rs.

(** * Properties *)

(** ** The matcher *)

Module ReFacts.
Import Re.

Section Continuations.
Context {A : Type}.
Implicit Types (k : str -> captures -> option A) (s : str) (caps : captures).
Implicit Types
  (body : str -> captures -> (str -> captures -> option A) -> option A).

Lemma star_loop_ext body k1 k2 n s caps :
  extensional body ->
  (forall s' caps', k1 s' caps' = k2 s' caps') ->
  star_loop body k1 n s caps = star_loop body k2 n s caps.
Proof.
  intros Hb Hk. revert s caps. induction n as [|n IH]; intros s caps; simpl.
  - apply Hk.
  - rewrite Hk. erewrite Hb; [reflexivity|].
    intros s' caps'. simpl. destruct (length s' <? length s); auto.
Qed.

Lemma star_loop_strict body n s caps :
  extensional body -> strict body ->
  star_loop body (fun _ _ => None) n s caps = None.
Proof.
  intros Hb Hs. revert s caps. induction n as [|n IH]; intros s caps; simpl; auto.
  erewrite Hb; [rewrite Hs; reflexivity|].
  intros s' caps'. simpl. rewrite IH. destruct (length s' <? length s); auto.
Qed.

Lemma m_ext whole r : extensional (m (A:=A) whole r).
Proof.
  induction r as [| |p|r1 IH1 r2 IH2|r1 IH1 r2 IH2|r IH|r IH|i r IH];
    intros s caps k1 k2 Hk; simpl.
  - rewrite Hk. reflexivity.
  - destruct s as [|c [|? ?]]; auto. rewrite Hk. reflexivity.
  - destruct s as [|c s']; auto. rewrite Hk. reflexivity.
  - apply IH1. intros. apply IH2. assumption.
  - rewrite (IH1 _ _ k1 k2 Hk), (IH2 _ _ k1 k2 Hk). reflexivity.
  - apply star_loop_ext; assumption.
  - apply IH. intros. apply star_loop_ext; assumption.
  - apply IH. intros. apply Hk.
Qed.

Lemma m_strict whole r : strict (m (A:=A) whole r).
Proof.
  induction r as [| |p|r1 IH1 r2 IH2|r1 IH1 r2 IH2|r IH|r IH|i r IH];
    intros s caps; simpl.
  - destruct (length s =? length whole); reflexivity.
  - destruct s as [|c [|? ?]]; auto. destruct (c =? NEWLINE)%N; reflexivity.
  - destruct s as [|c s']; auto. destruct (p c); reflexivity.
  - erewrite m_ext; [apply IH1|]. intros. apply IH2.
  - rewrite IH1, IH2. reflexivity.
  - apply star_loop_strict; [apply m_ext | assumption].
  - erewrite m_ext; [apply IH|]. intros. simpl.
    apply star_loop_strict; [apply m_ext | assumption].
  - apply IH.
Qed.

(** The bound on the iterations is never the reason a repetition stops. *)
Lemma star_loop_bound body k :
  extensional body -> strict body ->
  forall n n' s caps, length s <= n -> length s <= n' ->
    star_loop body k n s caps = star_loop body k n' s caps.
Proof.
  intros Hb Hs. induction n as [|n IH]; intros n' s caps Hn Hn'.
  - destruct s; [|simpl in Hn; lia]. destruct n' as [|n']; simpl; auto.
    erewrite Hb; [rewrite Hs; reflexivity|]. reflexivity.
  - destruct n' as [|n'].
    + destruct s; [|simpl in Hn'; lia]. simpl.
      erewrite Hb; [rewrite Hs; reflexivity|]. reflexivity.
    + simpl. erewrite Hb; [reflexivity|].
      intros s' caps'. simpl.
      destruct (length s' <? length s) eqn:E; auto.
      apply Nat.ltb_lt in E. apply IH; lia.
Qed.

(** The equation of a greedy star. *)
Lemma m_Star whole r s caps k :
  m whole (Star r) s caps k =
  match m whole r s caps (fun s' caps' =>
          if length s' <? length s then m whole (Star r) s' caps' k else None) with
  | Some x => Some x
  | None => k s caps
  end.
Proof.
  simpl. destruct s as [|c s0]; simpl.
  - erewrite m_ext; [rewrite m_strict; reflexivity|]. reflexivity.
  - erewrite m_ext; [reflexivity|].
    intros s' caps'. simpl.
    destruct (length s' <? S (length s0)) eqn:E; auto.
    apply Nat.ltb_lt in E.
    apply star_loop_bound; [apply m_ext | apply m_strict | lia | lia].
Qed.

Lemma m_Plus whole r s caps k :
  m whole (Plus r) s caps k =
  m whole r s caps (fun s' caps' => m whole (Star r) s' caps' k).
Proof. reflexivity. Qed.

Lemma m_Class whole p s caps k :
  m whole (Class p) s caps k =
  match s with
  | c :: s' => if p c then k s' caps else None
  | [] => None
  end.
Proof. reflexivity. Qed.

Lemma m_Seq whole r1 r2 s caps k :
  m whole (Seq r1 r2) s caps k =
  m whole r1 s caps (fun s' caps' => m whole r2 s' caps' k).
Proof. reflexivity. Qed.

Lemma m_Alt whole r1 r2 s caps k :
  m whole (Alt r1 r2) s caps k =
  match m whole r1 s caps k with
  | Some x => Some x
  | None => m whole r2 s caps k
  end.
Proof. reflexivity. Qed.

Lemma m_Group whole i r s caps k :
  m whole (Group i r) s caps k =
  m whole r s caps (fun s' caps' => k s' ((i, consumed s s') :: caps')).
Proof. reflexivity. Qed.

Lemma m_Eol whole s caps k :
  m whole Eol s caps k =
  match s with
  | [] => k s caps
  | [c] => if (c =? NEWLINE)%N then k s caps else None
  | _ => None
  end.
Proof. reflexivity. Qed.

Lemma m_Bol whole s caps k :
  m whole Bol s caps k = if length s =? length whole then k s caps else None.
Proof. reflexivity. Qed.

(** Repetition of a character class. *)
Lemma m_Star_Class_max whole p s caps k :
  (forall c s', p c = true -> k (c :: s') caps = None) ->
  m whole (Star (Class p)) s caps k = k (drop_while p s) caps.
Proof.
  intros Hk. induction s as [|c s IH]; rewrite m_Star, m_Class; auto.
  cbn [drop_while length]. destruct (p c) eqn:E; auto.
  replace (length s <? S (length s)) with true
    by (symmetry; apply Nat.ltb_lt; lia).
  rewrite IH. destruct (k (drop_while p s) caps) eqn:E'; auto.
Qed.

Lemma m_Star_Class_first whole p s caps k x :
  k (drop_while p s) caps = Some x ->
  m whole (Star (Class p)) s caps k = Some x.
Proof.
  induction s as [|c s IH]; rewrite m_Star, m_Class; auto.
  cbn [drop_while length]. destruct (p c) eqn:E; auto. intros Hk.
  replace (length s <? S (length s)) with true
    by (symmetry; apply Nat.ltb_lt; lia).
  rewrite IH; auto.
Qed.

End Continuations.

Lemma take_drop_while p s : take_while p s ++ drop_while p s = s.
Proof.
  induction s as [|c s IH]; simpl; auto.
  destruct (p c); simpl; [rewrite IH|]; reflexivity.
Qed.

Lemma length_drop_while p s : length (drop_while p s) <= length s.
Proof.
  induction s as [|c s IH]; simpl; auto. destruct (p c); simpl; lia.
Qed.

Lemma length_take_while p s : length (take_while p s) <= length s.
Proof.
  induction s as [|c s IH]; simpl; auto. destruct (p c); simpl; lia.
Qed.

Lemma consumed_app (pre post : str) : consumed (pre ++ post) post = pre.
Proof.
  unfold consumed. rewrite length_app.
  replace (length pre + length post - length post) with (length pre) by lia.
  apply take_app_length.
Qed.

Lemma consumed_drop_while p s : consumed s (drop_while p s) = take_while p s.
Proof.
  rewrite <- (take_drop_while p s) at 1. apply consumed_app.
Qed.

Lemma consumed_cons_drop_while p c s :
  consumed (c :: s) (drop_while p s) = c :: take_while p s.
Proof.
  rewrite <- (take_drop_while p s) at 1.
  apply (consumed_app (c :: take_while p s)).
Qed.

End ReFacts.

(** ** The character classes *)

Lemma one_of_spec l c : one_of l c = true <-> In c l.
Proof.
  unfold one_of. rewrite existsb_exists. split.
  - intros (x & Hx & E). apply N.eqb_eq in E. subst. assumption.
  - intros H. exists c. split; [assumption | apply N.eqb_refl].
Qed.

Lemma none_of_spec l c : none_of l c = true <-> ~ In c l.
Proof.
  unfold none_of. rewrite negb_true_iff, <- not_true_iff_false, one_of_spec.
  reflexivity.
Qed.

Lemma between_spec lo hi c : between lo hi c = true <-> (lo <= c <= hi)%N.
Proof.
  unfold between. rewrite andb_true_iff, !N.leb_le. reflexivity.
Qed.

Lemma lit_spec a c : lit a c = true <-> c = a.
Proof. unfold lit. apply N.eqb_eq. Qed.

Lemma In_unprintable c : In c unprintable <-> (c <= 32)%N.
Proof.
  unfold unprintable. rewrite in_map_iff. split.
  - intros (n & <- & Hn). apply in_seq in Hn. lia.
  - intros H. exists (N.to_nat c). split; [apply N2Nat.id|]. apply in_seq. lia.
Qed.

Lemma lower_spec c : lower c = true <-> (97 <= c <= 122)%N.
Proof. apply between_spec. Qed.

Lemma name_char_spec c :
  name_char c = true <->
  ((97 <= c <= 122) \/ (48 <= c <= 57) \/ c = 95)%N.
Proof.
  unfold name_char, lower.
  rewrite !orb_true_iff, !between_spec, lit_spec. tauto.
Qed.

Lemma command_char_spec c :
  command_char c = true <-> ((97 <= c <= 122) \/ c = 95)%N.
Proof.
  unfold command_char, lower. rewrite orb_true_iff, between_spec, lit_spec.
  tauto.
Qed.

Lemma whitespace_spec c :
  whitespace c = true <->
  (9 <= c <= 13 \/ 28 <= c <= 32 \/ c = 133 \/ c = 160 \/ c = 5760 \/
   8192 <= c <= 8202 \/ c = 8232 \/ c = 8233 \/ c = 8239 \/ c = 8287 \/
   c = 12288)%N.
Proof.
  unfold whitespace.
  rewrite !orb_true_iff, !between_spec, !one_of_spec. simpl. lia.
Qed.

Lemma dot_spec c : dot c = true <-> c <> NEWLINE.
Proof.
  unfold dot. rewrite none_of_spec. simpl. intuition congruence.
Qed.

Lemma unquoted_char_spec c :
  unquoted_char c = true <-> (32 < c /\ c <> 34 /\ c <> 92)%N.
Proof.
  unfold unquoted_char. rewrite none_of_spec, in_app_iff, In_unprintable.
  unfold DQUOTE, BACKSLASH. simpl. lia.
Qed.

Lemma plain_char_spec c : plain_char c = true <-> (c <> 34 /\ c <> 92)%N.
Proof.
  unfold plain_char. rewrite none_of_spec. unfold DQUOTE, BACKSLASH. simpl.
  lia.
Qed.

Lemma bool_false_iff (b : bool) (P : Prop) : (b = true <-> P) -> (b = false <-> ~ P).
Proof. intros H. rewrite <- H. destruct b; intuition congruence. Qed.

(** Decide a fact on the classes of one character by arithmetic. *)
Ltac class_to_arith :=
  repeat match goal with
  | H : lower _ = true |- _ => apply lower_spec in H
  | H : lower _ = false |- _ => apply (bool_false_iff _ _ (lower_spec _)) in H
  | H : name_char _ = true |- _ => apply name_char_spec in H
  | H : name_char _ = false |- _ => apply (bool_false_iff _ _ (name_char_spec _)) in H
  | H : command_char _ = true |- _ => apply command_char_spec in H
  | H : command_char _ = false |- _ => apply (bool_false_iff _ _ (command_char_spec _)) in H
  | H : whitespace _ = true |- _ => apply whitespace_spec in H
  | H : whitespace _ = false |- _ => apply (bool_false_iff _ _ (whitespace_spec _)) in H
  | H : dot _ = true |- _ => apply dot_spec in H
  | H : dot _ = false |- _ => apply (bool_false_iff _ _ (dot_spec _)) in H
  | H : unquoted_char _ = true |- _ => apply unquoted_char_spec in H
  | H : unquoted_char _ = false |- _ => apply (bool_false_iff _ _ (unquoted_char_spec _)) in H
  | H : plain_char _ = true |- _ => apply plain_char_spec in H
  | H : plain_char _ = false |- _ => apply (bool_false_iff _ _ (plain_char_spec _)) in H
  | H : lit _ _ = true |- _ => apply lit_spec in H
  | H : lit _ _ = false |- _ => apply (bool_false_iff _ _ (lit_spec _ _)) in H
  | |- lower _ = true => apply lower_spec
  | |- lower _ = false => apply (bool_false_iff _ _ (lower_spec _))
  | |- name_char _ = true => apply name_char_spec
  | |- name_char _ = false => apply (bool_false_iff _ _ (name_char_spec _))
  | |- command_char _ = true => apply command_char_spec
  | |- command_char _ = false => apply (bool_false_iff _ _ (command_char_spec _))
  | |- whitespace _ = true => apply whitespace_spec
  | |- whitespace _ = false => apply (bool_false_iff _ _ (whitespace_spec _))
  | |- dot _ = true => apply dot_spec
  | |- dot _ = false => apply (bool_false_iff _ _ (dot_spec _))
  | |- unquoted_char _ = true => apply unquoted_char_spec
  | |- unquoted_char _ = false => apply (bool_false_iff _ _ (unquoted_char_spec _))
  | |- plain_char _ = true => apply plain_char_spec
  | |- plain_char _ = false => apply (bool_false_iff _ _ (plain_char_spec _))
  | |- lit _ _ = true => apply lit_spec
  | |- lit _ _ = false => apply (bool_false_iff _ _ (lit_spec _ _))
  end;
  unfold NEWLINE, SPACE, TAB, DQUOTE, BACKSLASH in *.

Ltac class_arith := class_to_arith; lia.

(** ** What the patterns match *)

Section Patterns.
Import Re ReFacts.
Context {A : Type}.
Implicit Types (f : str -> captures -> A).

(** The last group, any characters: it takes the rest of the line. *)
Lemma m_rest_of_line whole i s caps f :
  m whole (Group i (Star (Class dot))) s caps (fun s' caps' => Some (f s' caps')) =
  Some (f (drop_while dot s) ((i, take_while dot s) :: caps)).
Proof.
  rewrite m_Group.
  erewrite m_Star_Class_first; [reflexivity|].
  cbv beta. rewrite consumed_drop_while. reflexivity.
Qed.

(** [TRAILING] and the last group. *)
Lemma m_trailing whole i s caps f :
  m whole (Seq TRAILING (Group i (Star (Class dot)))) s caps
    (fun s' caps' => Some (f s' caps')) =
  if delimitedb s
  then Some (f (drop_while dot (drop_while whitespace s)) ((i, strip s) :: caps))
  else None.
Proof.
  rewrite m_Seq.
  erewrite m_ext; [|intros; apply m_rest_of_line].
  unfold TRAILING. rewrite m_Alt, m_Plus, m_Class, m_Eol.
  destruct s as [|c s]; [reflexivity|].
  cbn [delimitedb]. destruct (whitespace c) eqn:W.
  - erewrite m_Star_Class_first; [|reflexivity].
    unfold strip. cbn [drop_while]. rewrite W. reflexivity.
  - destruct s; [|reflexivity].
    destruct (N.eqb_spec c NEWLINE); [subst; discriminate W | reflexivity].
Qed.

(** [WORD_RE] at the start of a line. *)
Lemma m_WORD_RE line f :
  m line WORD_RE line [] (fun s' caps' => Some (f s' caps')) =
  match line with
  | c :: s =>
      if lower c && delimitedb (drop_while name_char s)
      then Some (f (drop_while dot (drop_while whitespace (drop_while name_char s)))
                   [(2, strip (drop_while name_char s));
                    (1, c :: take_while name_char s)])
      else None
  | [] => None
  end.
Proof.
  unfold WORD_RE.
  rewrite m_Seq, m_Bol, Nat.eqb_refl, m_Seq, m_Group, m_Seq, m_Class.
  destruct line as [|c s]; [reflexivity|].
  destruct (lower c) eqn:L; [|reflexivity]. cbn [andb].
  erewrite m_ext; [|intros; rewrite m_trailing; reflexivity].
  rewrite m_Star_Class_max.
  - rewrite consumed_cons_drop_while. reflexivity.
  - intros d s' Hd. cbn [delimitedb].
    replace (whitespace d) with false; [reflexivity|].
    symmetry. class_arith.
Qed.

Lemma drop_while_head p s c s' : drop_while p s = c :: s' -> p c = false.
Proof.
  induction s as [|d s IH]; simpl; [discriminate|].
  destruct (p d) eqn:E; auto. intros [= <- <-]. assumption.
Qed.

Lemma quoted_split_drop_plain s :
  quoted_split s =
  (fun br => (take_while plain_char s ++ br.1, br.2))
    <$> quoted_split (drop_while plain_char s).
Proof.
  induction s as [|c s IH].
  - reflexivity.
  - cbn [take_while drop_while]. destruct (plain_char c) eqn:P.
    + cbn [quoted_split].
      replace (lit DQUOTE c) with false by (symmetry; class_arith).
      replace (lit BACKSLASH c) with false by (symmetry; class_arith).
      rewrite IH. destruct (quoted_split (drop_while plain_char s)) as [[b r]|];
        reflexivity.
    + destruct (quoted_split (c :: s)) as [[b r]|]; reflexivity.
Qed.

Lemma quoted_split_app s body rest :
  quoted_split s = Some (body, rest) -> s = body ++ DQUOTE :: rest.
Proof.
  remember (length s) as n eqn:Hn. revert s Hn body rest.
  induction n as [n IH] using lt_wf_ind. intros s Hn body rest.
  destruct s as [|c s]; [discriminate|]. cbn [quoted_split].
  destruct (lit DQUOTE c) eqn:Q.
  - intros [= <- <-]. apply lit_spec in Q. subst. reflexivity.
  - destruct (lit BACKSLASH c) eqn:B.
    + destruct s as [|d s]; [discriminate|].
      destruct (dot d); [|discriminate].
      destruct (quoted_split s) as [[b r]|] eqn:E; [|discriminate].
      intros [= <- <-]. simpl.
      rewrite (IH (length s)) with (s := s) (body := b) (rest := r);
        [reflexivity| simpl in Hn; lia | reflexivity | assumption].
    + destruct (quoted_split s) as [[b r]|] eqn:E; [|discriminate].
      intros [= <- <-]. simpl.
      rewrite (IH (length s)) with (s := s) (body := b) (rest := r);
        [reflexivity| simpl in Hn; lia | reflexivity | assumption].
Qed.

Lemma m_Star_ESCAPED whole (k : str -> captures -> option A) caps :
  (forall s' caps', (forall rest, s' <> DQUOTE :: rest) -> k s' caps' = None) ->
  forall n s, length s <= n ->
    m whole (Star ESCAPED) s caps k =
    match s with
    | c :: _ => if plain_char c then None else at_closing_quote k caps s
    | [] => None
    end.
Proof.
  intros Hk. induction n as [|n IH]; intros s Hlen.
  { destruct s; [|simpl in Hlen; lia].
    rewrite m_Star. unfold ESCAPED. rewrite m_Seq, m_Class.
    apply Hk. discriminate. }
  destruct s as [|c s0].
  { rewrite m_Star. unfold ESCAPED. rewrite m_Seq, m_Class.
    apply Hk. discriminate. }
  rewrite m_Star. unfold ESCAPED at 1. rewrite m_Seq, m_Class.
  unfold at_closing_quote. cbn [quoted_split].
  destruct (lit BACKSLASH c) eqn:B.
  - replace (plain_char c) with false by (symmetry; class_arith).
    replace (lit DQUOTE c) with false by (symmetry; class_arith).
    rewrite m_Seq, m_Class. destruct s0 as [|d s1].
    + apply Hk. intros rest [= -> _]. discriminate B.
    + destruct (dot d) eqn:D.
      * rewrite m_Star_Class_max.
        2:{ intros c' s' Hc'. destruct (length (c' :: s') <? _) eqn:E; [|reflexivity].
            apply Nat.ltb_lt in E. rewrite IH by (simpl in *; lia).
            rewrite Hc'. reflexivity. }
        pose proof (length_drop_while plain_char s1) as Hd.
        replace (length (drop_while plain_char s1) <? length (c :: d :: s1))
          with true by (symmetry; apply Nat.ltb_lt; simpl; lia).
        rewrite IH by (simpl in *; lia).
        rewrite (quoted_split_drop_plain s1).
        destruct (drop_while plain_char s1) as [|c' s'] eqn:E.
        -- simpl. apply Hk. intros rest [= -> _]. discriminate B.
        -- rewrite (drop_while_head _ _ _ _ E). unfold at_closing_quote.
           destruct (quoted_split (c' :: s')) as [[b r]|]; simpl.
           ++ destruct (k (DQUOTE :: r) caps); [reflexivity|].
              apply Hk. intros rest [= -> _]. discriminate B.
           ++ apply Hk. intros rest [= -> _]. discriminate B.
      * apply Hk. intros rest [= -> _]. discriminate B.
  - destruct (plain_char c) eqn:P.
    + apply Hk. intros rest [= -> _]. class_arith.
    + replace (lit DQUOTE c) with true by (symmetry; class_arith).
      replace c with DQUOTE by (symmetry; class_arith). reflexivity.
Qed.

Lemma m_QUOTED_BODY whole (k : str -> captures -> option A) caps s :
  (forall s' caps', (forall rest, s' <> DQUOTE :: rest) -> k s' caps' = None) ->
  m whole QUOTED_BODY s caps k = at_closing_quote k caps s.
Proof.
  intros Hk. unfold QUOTED_BODY. rewrite m_Seq, m_Star_Class_max.
  - rewrite (m_Star_ESCAPED whole k caps Hk _ _ (Nat.le_refl _)).
    unfold at_closing_quote at 2. rewrite (quoted_split_drop_plain s).
    destruct (drop_while plain_char s) as [|c' s'] eqn:E; [reflexivity|].
    rewrite (drop_while_head _ _ _ _ E). unfold at_closing_quote.
    destruct (quoted_split (c' :: s')) as [[b r]|]; reflexivity.
  - intros c s' Hc.
    rewrite (m_Star_ESCAPED whole k caps Hk _ _ (Nat.le_refl _)), Hc.
    reflexivity.
Qed.

(** A greedy run of a class before a continuation that goes on exactly
    where the string ends or a whitespace stands: the matcher backs up to
    the longest such run. *)
Lemma m_Star_Class_delimited whole p s caps (g : str -> A)
    (k : str -> captures -> option A) :
  (forall s', k s' caps = if delimitedb s' then Some (g s') else None) ->
  m whole (Star (Class p)) s caps k =
  (fun rr => g rr.2) <$> longest_delimited p s.
Proof.
  intros Hk. induction s as [|c s IH]; rewrite m_Star, m_Class.
  - rewrite Hk. reflexivity.
  - cbn [longest_delimited length]. destruct (p c) eqn:E.
    + replace (length s <? S (length s)) with true
        by (symmetry; apply Nat.ltb_lt; lia).
      rewrite IH. destruct (longest_delimited p s) as [[run rest]|];
        [reflexivity|].
      simpl. rewrite Hk. simpl. destruct (whitespace c); reflexivity.
    + rewrite Hk. simpl. destruct (whitespace c); reflexivity.
Qed.

Lemma longest_delimited_app p s run rest :
  longest_delimited p s = Some (run, rest) -> s = run ++ rest.
Proof.
  revert run rest. induction s as [|c s IH]; intros run rest; simpl.
  - intros [= <- <-]. reflexivity.
  - destruct (p c).
    + destruct (longest_delimited p s) as [[run' rest']|].
      * intros [= <- <-]. simpl. rewrite (IH run' rest'); reflexivity.
      * destruct (whitespace c); [|discriminate]. intros [= <- <-]. reflexivity.
    + destruct (whitespace c); [|discriminate]. intros [= <- <-]. reflexivity.
Qed.

(** [PARAM_RE] at the start of what remains of a line. *)
Lemma m_PARAM_RE s f :
  m s PARAM_RE s [] (fun s' caps' => Some (f s' caps')) =
  match s with
  | [] => None
  | c :: s0 =>
      if unquoted_char c then
        match longest_delimited unquoted_char s0 with
        | Some (run, rest) =>
            Some (f (drop_while dot (drop_while whitespace rest))
                    [(3, strip rest); (1, c :: run)])
        | None => None
        end
      else if lit DQUOTE c then
        match quoted_split s0 with
        | Some (body, rest) =>
            if delimitedb rest
            then Some (f (drop_while dot (drop_while whitespace rest))
                         [(3, strip rest); (2, body)])
            else None
        | None => None
        end
      else None
  end.
Proof.
  unfold PARAM_RE.
  rewrite m_Seq, m_Bol, Nat.eqb_refl, m_Seq.
  erewrite m_ext; [|intros; rewrite m_trailing; reflexivity].
  rewrite m_Alt, m_Group, m_Plus, m_Class, m_Seq, m_Class.
  destruct s as [|c s0]; [reflexivity|].
  destruct (unquoted_char c) eqn:U.
  - replace (lit DQUOTE c) with false by (symmetry; class_arith).
    rewrite (m_Star_Class_delimited (c :: s0) unquoted_char s0 []
               (fun s' => f (drop_while dot (drop_while whitespace s'))
                            [(3, strip s'); (1, consumed (c :: s0) s')]))
      by reflexivity.
    destruct (longest_delimited unquoted_char s0) as [[run rest]|] eqn:E;
      [|reflexivity].
    simpl. rewrite (longest_delimited_app _ _ _ _ E).
    pose proof (consumed_app (c :: run) rest) as Hc. cbn [app] in Hc.
    rewrite Hc. reflexivity.
  - destruct (lit DQUOTE c) eqn:Q; [|reflexivity].
    rewrite m_Seq, m_Group, m_QUOTED_BODY.
    + unfold at_closing_quote.
      destruct (quoted_split s0) as [[body rest]|] eqn:E; [|reflexivity].
      rewrite m_Class. replace (lit DQUOTE DQUOTE) with true by reflexivity.
      rewrite (quoted_split_app _ _ _ E), consumed_app. reflexivity.
    + intros s' caps' Hs'. rewrite m_Class.
      destruct s' as [|c' s'']; [reflexivity|].
      destruct (lit DQUOTE c') eqn:Q'; [|reflexivity].
      apply lit_spec in Q'. subst. destruct (Hs' s''). reflexivity.
Qed.

End Patterns.

(** The groups of the two patterns. *)
Lemma re_match_WORD_RE line :
  Re.m_caps <$> Re.re_match WORD_RE line =
  (fun nr => [(2, nr.2); (1, nr.1)]) <$> word_split line.
Proof.
  unfold Re.re_match, Re.match_at. rewrite m_WORD_RE. unfold word_split.
  destruct line as [|c s]; [reflexivity|].
  destruct (lower c && delimitedb (drop_while name_char s)); reflexivity.
Qed.

Lemma re_match_PARAM_RE s :
  Re.m_caps <$> Re.re_match PARAM_RE s =
  (fun uqr => match uqr with
              | (Some u, _, r) => [(3, r); (1, u)]
              | (None, Some q, r) => [(3, r); (2, q)]
              | (None, None, r) => [(3, r)]
              end) <$> param_split s.
Proof.
  unfold Re.re_match, Re.match_at. rewrite m_PARAM_RE. unfold param_split.
  destruct s as [|c s]; [reflexivity|].
  destruct (unquoted_char c).
  - destruct (longest_delimited unquoted_char s) as [[run rest]|]; reflexivity.
  - destruct (lit DQUOTE c); [|reflexivity].
    destruct (quoted_split s) as [[body rest]|]; [|reflexivity].
    destruct (delimitedb rest); reflexivity.
Qed.

(** ** The loop of the tokenizer *)

Lemma match_at_UNESCAPE_RE whole s :
  Re.match_at whole UNESCAPE_RE s =
  match s with
  | c :: d :: s' =>
      if lit BACKSLASH c && dot d
      then Some {| Re.m_caps := [(1, [d])]; Re.m_text := [c; d]; Re.m_rest := s' |}
      else None
  | _ => None
  end.
Proof.
  unfold Re.match_at, UNESCAPE_RE.
  rewrite ReFacts.m_Seq, ReFacts.m_Class.
  destruct s as [|c s]; [reflexivity|].
  destruct (lit BACKSLASH c); [|destruct s; reflexivity].
  rewrite ReFacts.m_Group, ReFacts.m_Class.
  destruct s as [|d s]; [reflexivity|].
  destruct (dot d); [|reflexivity]. cbn [andb].
  pose proof (ReFacts.consumed_app [d] s) as H1.
  pose proof (ReFacts.consumed_app [c; d] s) as H2.
  cbn [app] in H1, H2. rewrite H1, H2. reflexivity.
Qed.

Lemma sub_from_UNESCAPE_RE whole fuel s :
  length s <= fuel ->
  Re.sub_from whole UNESCAPE_RE
    (fun mo => default [] (Re.group 1 (Re.m_caps mo))) fuel s =
  drop_backslashes s.
Proof.
  revert s. induction fuel as [fuel IH] using lt_wf_ind. intros s Hlen.
  destruct fuel as [|fuel].
  { destruct s; [reflexivity | simpl in Hlen; lia]. }
  destruct s as [|c s]; [reflexivity|].
  cbn [Re.sub_from drop_backslashes]. rewrite match_at_UNESCAPE_RE.
  destruct s as [|d s].
  { destruct (lit BACKSLASH c); destruct fuel; reflexivity. }
  destruct (lit BACKSLASH c) eqn:B; cbn [andb].
  - destruct (dot d) eqn:D.
    + cbn [Re.m_rest Re.m_caps Re.group Nat.eqb default].
      replace (length s <? length (c :: d :: s)) with true
        by (symmetry; apply Nat.ltb_lt; simpl; lia).
      simpl in Hlen. rewrite (IH fuel) by lia. reflexivity.
    + rewrite IH by (simpl in *; lia). reflexivity.
  - rewrite IH by (simpl in *; lia). reflexivity.
Qed.

Lemma unescape_drop_backslashes q : unescape q = drop_backslashes q.
Proof. apply sub_from_UNESCAPE_RE. reflexivity. Qed.

Lemma tokenize_within_eq fuel line :
  tokenize_within fuel line =
  match word_split line with
  | Some (command, remainder) => tokenize_params fuel [command] remainder
  | None => Some (Raise InvalidCommand)
  end.
Proof.
  unfold tokenize_within. pose proof (re_match_WORD_RE line) as H.
  destruct (Re.re_match WORD_RE line) as [mo|];
    destruct (word_split line) as [[command remainder]|]; try discriminate H.
  - injection H as ->. reflexivity.
  - reflexivity.
Qed.

Lemma tokenize_params_eq fuel result c s :
  tokenize_params (S fuel) result (c :: s) =
  match next_param (c :: s) with
  | Some (arg, remainder) => tokenize_params fuel (result ++ [arg]) remainder
  | None => Some (Raise InvalidArgument)
  end.
Proof.
  cbn [tokenize_params]. unfold next_param.
  pose proof (re_match_PARAM_RE (c :: s)) as H.
  destruct (Re.re_match PARAM_RE (c :: s)) as [mo|];
    destruct (param_split (c :: s)) as [[[u q] r]|] eqn:E; try discriminate H.
  - injection H as ->. revert E. unfold param_split.
    destruct (unquoted_char c).
    + destruct (longest_delimited unquoted_char s) as [[run rest]|];
        [|discriminate].
      intros [= <- <- <-]. reflexivity.
    + destruct (lit DQUOTE c); [|discriminate].
      destruct (quoted_split s) as [[body rest]|]; [|discriminate].
      destruct (delimitedb rest); [|discriminate]. intros [= <- <- <-].
      cbn. rewrite unescape_drop_backslashes. reflexivity.
  - reflexivity.
Qed.

(** ** Lines written from a command name and parameters *)

Lemma take_while_app p (t rest : str) :
  forallb p t = true -> (forall c r, rest = c :: r -> p c = false) ->
  take_while p (t ++ rest) = t.
Proof.
  intros Ht Hr. induction t as [|c t IH]; simpl in *.
  - destruct rest as [|c r]; [reflexivity|]. simpl. rewrite (Hr c r); reflexivity.
  - apply andb_true_iff in Ht as [-> Ht]. rewrite IH; auto.
Qed.

Lemma drop_while_app p (t rest : str) :
  forallb p t = true -> (forall c r, rest = c :: r -> p c = false) ->
  drop_while p (t ++ rest) = rest.
Proof.
  intros Ht Hr. induction t as [|c t IH]; simpl in *.
  - destruct rest as [|c r]; [reflexivity|]. simpl. rewrite (Hr c r); reflexivity.
  - apply andb_true_iff in Ht as [-> Ht]. rewrite IH; auto.
Qed.

Lemma forallb_take_while p s : forallb p (take_while p s) = true.
Proof.
  induction s as [|c s IH]; simpl; [reflexivity|].
  destruct (p c) eqn:E; simpl; [rewrite E, IH|]; reflexivity.
Qed.

Lemma take_while_dot s : ~ In NEWLINE s -> take_while dot s = s.
Proof.
  induction s as [|c s IH]; simpl; [reflexivity|]. intros H.
  replace (dot c) with true by (symmetry; apply dot_spec; intuition).
  rewrite IH; intuition.
Qed.

Lemma strip_nil : strip [] = [].
Proof. reflexivity. Qed.

Lemma strip_space s :
  no_leading_space s -> ~ In NEWLINE s -> strip (SPACE :: s) = s.
Proof.
  intros Hs Hn. unfold strip. cbn [drop_while].
  replace (whitespace SPACE) with true by reflexivity.
  replace (drop_while whitespace s) with s; [apply take_while_dot; assumption|].
  destruct s as [|c r]; [reflexivity|]. simpl. rewrite (Hs c r); reflexivity.
Qed.

Lemma delimitedb_spec s : delimitedb s = true <-> delimited s.
Proof.
  unfold delimited. destruct s as [|c s]; simpl.
  - intuition.
  - split.
    + intros H. right. eauto.
    + intros [H | (c' & s' & [= <- <-] & H)]; [discriminate | assumption].
Qed.

Lemma quoted_split_escaped q rest :
  escaped_text q -> quoted_split (q ++ DQUOTE :: rest) = Some (q, rest).
Proof.
  induction 1 as [|c s Hq Hb _ IH|d s Hd _ IH]; cbn [app quoted_split].
  - reflexivity.
  - replace (lit DQUOTE c) with false by (symmetry; class_arith).
    replace (lit BACKSLASH c) with false by (symmetry; class_arith).
    rewrite IH. reflexivity.
  - replace (lit DQUOTE BACKSLASH) with false by reflexivity.
    replace (lit BACKSLASH BACKSLASH) with true by reflexivity.
    replace (dot d) with true by (symmetry; class_arith).
    rewrite IH. reflexivity.
Qed.

Lemma drop_backslashes_escaped q :
  escaped_text q -> drop_backslashes q = unescape_spec q.
Proof.
  induction 1 as [|c s Hq Hb _ IH|d s Hd _ IH];
    cbn [drop_backslashes unescape_spec].
  - reflexivity.
  - replace (lit BACKSLASH c) with false by (symmetry; class_arith).
    replace (c =? BACKSLASH)%N with false by (symmetry; apply N.eqb_neq; assumption).
    rewrite IH. reflexivity.
  - replace (lit BACKSLASH BACKSLASH) with true by reflexivity.
    replace (BACKSLASH =? BACKSLASH)%N with true by reflexivity.
    replace (dot d) with true by (symmetry; class_arith).
    rewrite IH. reflexivity.
Qed.

Lemma bare_char_unquoted c : bare_char c = true -> unquoted_char c = true.
Proof.
  unfold bare_char, control. rewrite !andb_true_iff, !negb_true_iff, N.ltb_ge.
  intros [[[Hc Hw] Hq] Hb]. class_arith.
Qed.

Lemma unquoted_char_bare_class c : unquoted_char c = bare_class c.
Proof.
  apply eq_true_iff_eq. rewrite unquoted_char_spec. unfold bare_class.
  rewrite !andb_true_iff, !negb_true_iff, N.ltb_lt, !N.eqb_neq. tauto.
Qed.

Lemma forallb_ext_in {X} (f g : X -> bool) l :
  (forall x, f x = g x) -> forallb f l = forallb g l.
Proof. intros H. induction l as [|x l IH]; simpl; [|rewrite H, IH]; reflexivity. Qed.

Lemma forallb_impl {X} (f g : X -> bool) l :
  (forall x, f x = true -> g x = true) -> forallb f l = true -> forallb g l = true.
Proof.
  intros H. induction l as [|x l IH]; simpl; [reflexivity|].
  rewrite !andb_true_iff. intros [Hx Hl]. auto.
Qed.

(** The longest run that ends at a whitespace or at the end. *)
Lemma longest_delimited_spec p s run rest :
  longest_delimited p s = Some (run, rest) ->
  s = run ++ rest /\ forallb p run = true /\ delimitedb rest = true.
Proof.
  revert run rest. induction s as [|c s IH]; intros run rest; simpl.
  - intros [= <- <-]. auto.
  - destruct (p c) eqn:E.
    + destruct (longest_delimited p s) as [[run' rest']|].
      * intros [= <- <-]. destruct (IH run' rest' eq_refl) as (-> & Hr & Hd).
        simpl. rewrite E. auto.
      * destruct (whitespace c) eqn:W; [|discriminate].
        intros [= <- <-]. simpl. auto.
    + destruct (whitespace c) eqn:W; [|discriminate].
      intros [= <- <-]. simpl. auto.
Qed.

Lemma longest_delimited_None p s :
  longest_delimited p s = None ->
  forall run rest, s = run ++ rest -> forallb p run = true -> delimitedb rest = false.
Proof.
  induction s as [|c s IH]; simpl; [discriminate|].
  destruct (p c) eqn:E.
  - destruct (longest_delimited p s) as [[run' rest']|] eqn:L; [discriminate|].
    destruct (whitespace c) eqn:W; [discriminate|]. intros _ run rest Hs Hr.
    destruct run as [|d run]; simpl in Hs.
    + subst rest. simpl. assumption.
    + injection Hs as <- ->. simpl in Hr. apply andb_true_iff in Hr as [_ Hr].
      apply (IH eq_refl run rest eq_refl Hr).
  - destruct (whitespace c) eqn:W; [discriminate|]. intros _ run rest Hs Hr.
    destruct run as [|d run]; simpl in Hs.
    + subst rest. simpl. assumption.
    + injection Hs as <- ->. simpl in Hr. rewrite E in Hr. discriminate Hr.
Qed.

Lemma longest_delimited_max p s run rest :
  longest_delimited p s = Some (run, rest) ->
  forall run' rest', s = run' ++ rest' -> forallb p run' = true ->
    delimitedb rest' = true -> length run' <= length run.
Proof.
  revert run rest. induction s as [|c s IH]; intros run rest; simpl.
  - intros [= <- <-] run' rest' Hs _ _.
    destruct run'; [simpl; lia | discriminate Hs].
  - intros H run' rest' Hs Hr Hd.
    destruct run' as [|d run']; [simpl; lia|].
    simpl in Hs. injection Hs as <- ->.
    simpl in Hr. apply andb_true_iff in Hr as [Hc Hr]. rewrite Hc in H.
    destruct (longest_delimited p (run' ++ rest')) as [[run0 rest0]|] eqn:L.
    + injection H as <- <-. simpl.
      pose proof (IH run0 rest0 eq_refl run' rest' eq_refl Hr Hd). lia.
    + pose proof (longest_delimited_None p _ L run' rest' eq_refl Hr). congruence.
Qed.

(** A run that ends where the class ends is taken whole. *)
Lemma longest_delimited_whole p run rest :
  forallb p run = true -> delimitedb rest = true ->
  (forall c r, rest = c :: r -> p c = false) ->
  longest_delimited p (run ++ rest) = Some (run, rest).
Proof.
  intros Hr Hd Hh. induction run as [|c run IH]; simpl in *.
  - destruct rest as [|c r]; [reflexivity|].
    simpl in *. rewrite (Hh c r eq_refl), Hd. reflexivity.
  - apply andb_true_iff in Hr as [-> Hr]. rewrite IH by assumption. reflexivity.
Qed.

Lemma app_eq_length {X} (a b a' b' : list X) :
  a ++ b = a' ++ b' -> length a = length a' -> a = a' /\ b = b'.
Proof.
  revert a'. induction a as [|x a IH]; intros [|x' a'] H Hl;
    try discriminate Hl; [auto|].
  simpl in H. injection H as -> H. injection Hl as Hl.
  destruct (IH a' H Hl) as [-> ->]. auto.
Qed.

Lemma longest_delimited_of_max p run rest :
  forallb p run = true -> delimitedb rest = true ->
  (forall run' rest', run ++ rest = run' ++ rest' -> forallb p run' = true ->
     delimitedb rest' = true -> length run' <= length run) ->
  longest_delimited p (run ++ rest) = Some (run, rest).
Proof.
  intros Hr Hd Hmax.
  destruct (longest_delimited p (run ++ rest)) as [[run0 rest0]|] eqn:L.
  - destruct (longest_delimited_spec _ _ _ _ L) as (E & Hr0 & Hd0).
    pose proof (longest_delimited_max _ _ _ _ L run rest eq_refl Hr Hd).
    pose proof (Hmax run0 rest0 E Hr0 Hd0).
    destruct (app_eq_length _ _ _ _ E) as [-> ->]; [lia | reflexivity].
  - pose proof (longest_delimited_None _ _ L run rest eq_refl Hr). congruence.
Qed.

(** A parameter before the end of the line or before a whitespace that an
    unquoted token cannot hold. *)
Lemma next_param_render p rest :
  token_form p ->
  (forall c r, rest = c :: r -> whitespace c = true /\ unquoted_char c = false) ->
  next_param (render p ++ rest) = Some (value p, strip rest).
Proof.
  intros Hp Hr.
  assert (Hd : delimitedb rest = true).
  { destruct rest as [|c r]; [reflexivity|]. simpl. apply (Hr c r eq_refl). }
  unfold next_param, param_split. destruct p as [t|q]; simpl in *.
  - destruct Hp as [Hne Ht]. destruct t as [|c t]; [congruence|].
    rewrite <- (forallb_ext_in _ _ _ unquoted_char_bare_class) in Ht.
    simpl in *. apply andb_true_iff in Ht as [-> Ht].
    rewrite longest_delimited_whole; [reflexivity | assumption | assumption |].
    intros d r E. apply (Hr d r E).
  - rewrite <- app_assoc. cbn [app].
    rewrite quoted_split_escaped, Hd, drop_backslashes_escaped by assumption.
    reflexivity.
Qed.

Lemma next_param_quoted q rest :
  escaped_text q -> delimitedb rest = true ->
  next_param (DQUOTE :: q ++ DQUOTE :: rest) = Some (unescape_spec q, strip rest).
Proof.
  intros Hq Hd. unfold next_param, param_split.
  replace (unquoted_char DQUOTE) with false by reflexivity.
  replace (lit DQUOTE DQUOTE) with true by reflexivity.
  rewrite quoted_split_escaped, Hd, drop_backslashes_escaped by assumption.
  reflexivity.
Qed.

Lemma well_formed_token_form p : well_formed p -> token_form p.
Proof.
  destruct p as [t|q]; simpl; [|tauto].
  intros [Hne Ht]. split; [assumption|].
  revert Ht. apply forallb_impl. intros c Hc.
  apply andb_true_iff in Hc as [Hc _].
  rewrite <- unquoted_char_bare_class. assumption.
Qed.

Lemma render_cons p : well_formed p -> exists c x, render p = c :: x.
Proof.
  destruct p as [t|q]; simpl.
  - intros [Hne _]. destruct t; [congruence | eauto].
  - eauto.
Qed.

Lemma render_no_leading_space p : well_formed p -> no_leading_space (render p).
Proof.
  destruct p as [t|q]; simpl; intros Hp c r E.
  - destruct Hp as [_ Ht]. subst. simpl in Ht.
    apply andb_true_iff in Ht as [Hc _]. apply andb_true_iff in Hc as [_ Hc].
    apply negb_true_iff in Hc. assumption.
  - injection E as <- _. reflexivity.
Qed.

Lemma forallb_unquoted_no_newline t :
  forallb unquoted_char t = true -> ~ In NEWLINE t.
Proof.
  induction t as [|c t IH]; simpl; [tauto|].
  intros H. apply andb_true_iff in H as [Hc Ht].
  intros [E | Hin]; [subst c; discriminate Hc | exact (IH Ht Hin)].
Qed.

Lemma render_no_newline p : well_formed p -> ~ In NEWLINE (render p).
Proof.
  destruct p as [t|q]; simpl.
  - intros [_ Ht]. apply forallb_unquoted_no_newline.
    revert Ht. apply forallb_impl. intros c Hc.
    apply andb_true_iff in Hc. tauto.
  - intros [_ Hn] [E | Hin]; [discriminate E|].
    apply in_app_iff in Hin as [Hin | [E | []]]; [tauto | discriminate E].
Qed.

Lemma join_cons (p : param) ps :
  join [SPACE] (map render (p :: ps)) =
  render p ++ match ps with
              | [] => []
              | _ :: _ => SPACE :: join [SPACE] (map render ps)
              end.
Proof.
  destruct ps as [|p' ps]; simpl.
  - rewrite app_nil_r. reflexivity.
  - reflexivity.
Qed.

Lemma join_no_leading_space ps :
  Forall well_formed ps -> no_leading_space (join [SPACE] (map render ps)).
Proof.
  intros H. destruct H as [|p ps Hp Hps]; intros c r E; [discriminate E|].
  rewrite join_cons in E.
  destruct (render_cons p Hp) as (c' & x & Ec). rewrite Ec in E.
  injection E as <- _. apply (render_no_leading_space p Hp c' x Ec).
Qed.

Lemma join_no_newline ps :
  Forall well_formed ps -> ~ In NEWLINE (join [SPACE] (map render ps)).
Proof.
  induction 1 as [|p ps Hp Hps IH]; [simpl; tauto|].
  rewrite join_cons. intros Hin. apply in_app_iff in Hin as [Hin | Hin].
  - exact (render_no_newline p Hp Hin).
  - destruct ps; [destruct Hin|]. destruct Hin as [E | Hin]; [discriminate E | tauto].
Qed.

Lemma length_join ps :
  Forall well_formed ps -> length ps <= length (join [SPACE] (map render ps)).
Proof.
  induction 1 as [|p ps Hp Hps IH]; [simpl; lia|].
  rewrite join_cons, length_app.
  destruct (render_cons p Hp) as (c & x & ->).
  destruct ps; simpl in *; lia.
Qed.

Lemma tokenize_params_join ps :
  Forall well_formed ps ->
  forall fuel result, length ps <= fuel ->
    tokenize_params fuel result (join [SPACE] (map render ps)) =
    Some (Return (result ++ map value ps)).
Proof.
  induction 1 as [|p ps Hp Hps IH]; intros fuel result Hfuel.
  - simpl. rewrite app_nil_r. destruct fuel; reflexivity.
  - rewrite join_cons.
    destruct (render_cons p Hp) as (c & x & Ec).
    destruct fuel as [|fuel]; [simpl in Hfuel; lia|].
    assert (Hstep : forall rest,
      (forall d r, rest = d :: r -> whitespace d = true /\ unquoted_char d = false) ->
      tokenize_params (S fuel) result (render p ++ rest) =
      tokenize_params fuel (result ++ [value p]) (strip rest)).
    { intros rest Hrest. rewrite Ec. cbn [app]. rewrite tokenize_params_eq.
      change (c :: x ++ rest) with ((c :: x) ++ rest).
      rewrite <- Ec, next_param_render
        by (assumption || apply well_formed_token_form; assumption).
      reflexivity. }
    simpl in Hfuel. destruct ps as [|p' ps].
    + rewrite Hstep by discriminate. rewrite strip_nil. simpl.
      destruct fuel; reflexivity.
    + rewrite Hstep by (intros d r [= <- _]; split; reflexivity).
      rewrite strip_space
        by (apply join_no_leading_space || apply join_no_newline; assumption).
      rewrite IH by (simpl in *; lia).
      rewrite <- app_assoc. reflexivity.
Qed.

Lemma command_name_not_delimiter rest :
  delimitedb rest = true -> forall c r, rest = c :: r -> name_char c = false.
Proof. intros H c r ->. simpl in H. class_arith. Qed.

Lemma word_split_command n rest :
  command_name n = true -> delimitedb rest = true ->
  word_split (n ++ rest) = Some (n, strip rest).
Proof.
  intros Hn Hr. destruct n as [|c n]; [discriminate Hn|].
  simpl in *. apply andb_true_iff in Hn as [-> Hn].
  rewrite drop_while_app, take_while_app, Hr;
    eauto using command_name_not_delimiter.
Qed.

(** A command name, a space and parameters separated by single spaces
    tokenize to the name and the arguments the parameters stand for. *)
Lemma tokenize_rendered n ps :
  command_name n = true -> Forall well_formed ps ->
  tokenize (n ++ [SPACE] ++ join [SPACE] (map render ps)) =
  Some (Return (n :: map value ps)).
Proof.
  intros Hn Hps. unfold tokenize. rewrite tokenize_within_eq. cbn [app].
  rewrite word_split_command by (assumption || reflexivity).
  rewrite strip_space by (apply join_no_leading_space || apply join_no_newline; assumption).
  apply tokenize_params_join; [assumption|].
  rewrite length_app. pose proof (length_join ps Hps). simpl. lia.
Qed.

Lemma tokenize_name_only n :
  command_name n = true -> tokenize n = Some (Return [n]).
Proof.
  intros Hn. unfold tokenize. rewrite tokenize_within_eq.
  pose proof (word_split_command n [] Hn eq_refl) as H.
  rewrite app_nil_r in H. rewrite H, strip_nil.
  destruct (length n); reflexivity.
Qed.

(** ** The tokenizer on well-formed lines *)

Lemma map_render_Bare A : map render (map Bare A) = A.
Proof. induction A as [|a A IH]; simpl; [|rewrite IH]; reflexivity. Qed.

Lemma map_value_Bare A : map value (map Bare A) = A.
Proof. induction A as [|a A IH]; simpl; [|rewrite IH]; reflexivity. Qed.

Lemma bare_char_no_space c :
  bare_char c = true -> unquoted_char c && negb (whitespace c) = true.
Proof.
  intros H. rewrite (bare_char_unquoted c H). unfold bare_char in H.
  rewrite !andb_true_iff in H. tauto.
Qed.

Lemma tokenize_unquoted n A :
  command_name n = true ->
  Forall (fun t => well_formed (Bare t)) A ->
  tokenize (n ++ [SPACE] ++ join [SPACE] A) = Some (Return (n :: A)).
Proof.
  intros Hn HA.
  assert (Hwf : Forall well_formed (map Bare A))
    by (induction HA as [|t A Ht HA IH]; simpl; constructor; assumption).
  pose proof (tokenize_rendered n (map Bare A) Hn Hwf) as H.
  rewrite map_render_Bare, map_value_Bare in H. exact H.
Qed.

(** C1: for every command name [n] and every list [A] of non-empty tokens
    whose characters are printable and are neither whitespace nor the
    double quote nor the backslash, tokenizing [n], a space and the tokens
    joined by spaces gives [n] with the argument list [A]; tokenizing [n]
    alone gives [n] with no argument. *)
Theorem tokenize_bare_arguments n A :
  command_name n = true -> Forall bare_token A ->
  tokenize (n ++ [SPACE] ++ join [SPACE] A) = Some (Return (n :: A)) /\
  tokenize n = Some (Return [n]).
Proof.
  intros Hn HA. split; [|apply tokenize_name_only; assumption].
  apply tokenize_unquoted; [assumption|].
  induction HA as [|t A [Hne Ht] HA IH]; constructor; [|assumption].
  split; [assumption|].
  revert Ht. apply forallb_impl. apply bare_char_no_space.
Qed.

Lemma tokenize_bare_arguments_witness :
  tokenize (of_string "find" ++ [SPACE]
            ++ join [SPACE] [of_string "artist"; of_string "abba"]) =
    Some (Return [of_string "find"; of_string "artist"; of_string "abba"]) /\
  tokenize (of_string "find") = Some (Return [of_string "find"]).
Proof.
  apply tokenize_bare_arguments; [reflexivity|].
  repeat constructor; discriminate.
Defined.

Lemma escaped_text_plain q :
  (forall c, In c q -> c <> DQUOTE /\ c <> BACKSLASH) -> escaped_text q.
Proof.
  induction q as [|c q IH]; intros H; [constructor|].
  destruct (H c (or_introl eq_refl)) as [Hq Hb].
  constructor; [assumption | assumption |].
  apply IH. intros d Hd. apply H. right. assumption.
Qed.

Lemma unescape_spec_plain q :
  ~ In BACKSLASH q -> unescape_spec q = q.
Proof.
  induction q as [|c q IH]; simpl; [reflexivity|]. intros H.
  replace (c =? BACKSLASH)%N with false
    by (symmetry; apply N.eqb_neq; intuition).
  rewrite IH; intuition.
Qed.

Lemma tokenize_one_quoted n q :
  command_name n = true -> escaped_text q -> ~ In NEWLINE q ->
  tokenize (n ++ [SPACE; DQUOTE] ++ q ++ [DQUOTE]) =
  Some (Return [n; unescape_spec q]).
Proof.
  intros Hn Hq Hnl.
  apply (tokenize_rendered n [Quoted q] Hn).
  constructor; [split; assumption | constructor].
Qed.

(** C4, as the code has it: a quoted parameter may hold any character
    other than the double quote, the backslash and the newline, the
    characters of ordinal value below 0x20 included; the line is accepted
    and the content is the argument, unchanged. *)
Theorem tokenize_quoted_any_character n q :
  command_name n = true ->
  (forall c, In c q -> c <> DQUOTE /\ c <> BACKSLASH /\ c <> NEWLINE) ->
  tokenize (n ++ [SPACE; DQUOTE] ++ q ++ [DQUOTE]) = Some (Return [n; q]).
Proof.
  intros Hn Hq.
  rewrite tokenize_one_quoted; [| assumption | |].
  - rewrite unescape_spec_plain; [reflexivity|].
    intros Hin. destruct (Hq _ Hin) as (_ & Hb & _). congruence.
  - apply escaped_text_plain. intros c Hc. destruct (Hq c Hc). tauto.
  - intros Hin. destruct (Hq _ Hin) as (_ & _ & Hnl). congruence.
Qed.

Lemma tokenize_quoted_any_character_witness :
  tokenize (of_string "cmd" ++ [SPACE; DQUOTE] ++ [97; 1; 98]%N ++ [DQUOTE]) =
  Some (Return [of_string "cmd"; [97; 1; 98]%N]).
Proof.
  apply tokenize_quoted_any_character; [reflexivity|].
  intros c [<- | [<- | [<- | []]]]; repeat split; discriminate.
Defined.

(** C4, as stated, fails: the character of ordinal value 1 stands
    unescaped between the quotes and the line is accepted. *)
Lemma tokenize_quoted_control_accepted :
  control 1 = true /\
  tokenize (of_string "cmd " ++ [DQUOTE; 97; 1; 98; DQUOTE]%N) =
    Some (Return [of_string "cmd"; [97; 1; 98]%N]) /\
  tokenize (of_string "cmd " ++ [DQUOTE; 97; 1; 98; DQUOTE]%N) <>
    Some (Raise InvalidArgument).
Proof. repeat split. vm_compute. discriminate. Qed.

(** C6: the content of a quoted parameter is unescaped by removing each
    backslash and keeping the character after it as it is: backslash and
    double quote give a double quote, two backslashes give one, backslash
    and the letter n give the letter n; in particular the line made of
    cmd, a space and the quoted text a, backslash, double quote, b has the
    single argument a, double quote, b. *)
Theorem tokenize_unescapes_quoted n before q after :
  command_name n = true ->
  Forall well_formed before -> Forall well_formed after ->
  escaped_text q -> ~ In NEWLINE q ->
  tokenize (n ++ [SPACE]
            ++ join [SPACE] (map render (before ++ Quoted q :: after))) =
    Some (Return (n :: map value before ++ unescape_spec q :: map value after)) /\
  unescape [BACKSLASH; DQUOTE] = [DQUOTE] /\
  unescape [BACKSLASH; BACKSLASH] = [BACKSLASH] /\
  unescape (BACKSLASH :: of_string "n") = of_string "n" /\
  tokenize (of_string "cmd " ++ [DQUOTE] ++ of_string "a"
            ++ [BACKSLASH; DQUOTE] ++ of_string "b" ++ [DQUOTE]) =
    Some (Return [of_string "cmd"; of_string "a" ++ [DQUOTE] ++ of_string "b"]).
Proof.
  intros Hn Hb Ha Hq Hnl. split; [|repeat split].
  rewrite tokenize_rendered; [| assumption |].
  - rewrite map_app. reflexivity.
  - apply Forall_app. split; [assumption|].
    constructor; [split; assumption | assumption].
Qed.

Lemma tokenize_unescapes_quoted_witness :
  tokenize (of_string "add" ++ [SPACE]
            ++ join [SPACE] (map render
                 ([Bare (of_string "x")]
                  ++ Quoted (of_string "a" ++ [BACKSLASH; BACKSLASH] ++ of_string "b")
                  :: [Bare (of_string "y")]))) =
    Some (Return (of_string "add" :: map value [Bare (of_string "x")]
                  ++ unescape_spec (of_string "a" ++ [BACKSLASH; BACKSLASH] ++ of_string "b")
                  :: map value [Bare (of_string "y")])) /\
  unescape [BACKSLASH; DQUOTE] = [DQUOTE] /\
  unescape [BACKSLASH; BACKSLASH] = [BACKSLASH] /\
  unescape (BACKSLASH :: of_string "n") = of_string "n" /\
  tokenize (of_string "cmd " ++ [DQUOTE] ++ of_string "a"
            ++ [BACKSLASH; DQUOTE] ++ of_string "b" ++ [DQUOTE]) =
    Some (Return [of_string "cmd"; of_string "a" ++ [DQUOTE] ++ of_string "b"]).
Proof.
  apply tokenize_unescapes_quoted.
  - reflexivity.
  - repeat constructor. discriminate.
  - repeat constructor. discriminate.
  - apply escaped_plain; [discriminate | discriminate |].
    apply escaped_pair; [discriminate|].
    apply escaped_plain; [discriminate | discriminate | apply escaped_nil].
  - simpl. intros [E | [E | [E | [E | []]]]]; discriminate E.
Defined.

Lemma take_while_ext p1 p2 s :
  (forall c, p1 c = p2 c) -> take_while p1 s = take_while p2 s.
Proof.
  intros H. induction s as [|c s IH]; simpl; [reflexivity|].
  rewrite H, IH. reflexivity.
Qed.

Lemma length_take_while_prefix p (t rest : str) :
  forallb p t = true -> length t <= length (take_while p (t ++ rest)).
Proof.
  induction t as [|c t IH]; simpl; [lia|].
  intros H. apply andb_true_iff in H as [-> H]. simpl. pose proof (IH H). lia.
Qed.

Lemma delimited_dec rest : delimited rest -> delimitedb rest = true.
Proof. apply delimitedb_spec. Qed.

(** C3, as the code has it: an unquoted token matched by [PARAM_RE] is a
    non-empty run of characters that are none of: a character of ordinal
    value at or below 0x20 (the control characters and the space), the
    double quote, the backslash; it is the longest such run at the start of
    the input that is followed by a whitespace or by the end of the input,
    hence the longest run of all when that one is so followed; and a run of
    such characters that does not begin with a whitespace is accepted by
    [tokenize] as one unquoted token. *)
Theorem unquoted_token_longest_run s mo t n u :
  Re.re_match PARAM_RE s = Some mo -> Re.group 1 (Re.m_caps mo) = Some t ->
  command_name n = true -> u <> [] -> forallb bare_class u = true ->
  no_leading_space u ->
  (t <> [] /\
   (exists rest, s = t ++ rest /\ forallb bare_class t = true /\ delimited rest) /\
   (forall t' rest', s = t' ++ rest' -> forallb bare_class t' = true ->
      delimited rest' -> length t' <= length t) /\
   (delimited (drop_while bare_class s) -> t = take_while bare_class s)) /\
  tokenize (n ++ [SPACE] ++ u) = Some (Return [n; u]).
Proof.
  intros Hm Ht Hn Hu Hcls Hlead. split.
  - pose proof (re_match_PARAM_RE s) as H. rewrite Hm in H.
    destruct (param_split s) as [[[u0 q0] r0]|] eqn:E; [|discriminate H].
    injection H as H. rewrite H in Ht. clear H Hm.
    unfold param_split in E. destruct s as [|c s0]; [discriminate E|].
    destruct (unquoted_char c) eqn:U.
    + destruct (longest_delimited unquoted_char s0) as [[run rest]|] eqn:L;
        [|discriminate E].
      injection E as <- <- <-. cbn in Ht. injection Ht as <-.
      destruct (longest_delimited_spec _ _ _ _ L) as (-> & Hrun & Hd).
      assert (Hall : forallb bare_class (c :: run) = true).
      { rewrite <- (forallb_ext_in _ _ _ unquoted_char_bare_class).
        simpl. rewrite U, Hrun. reflexivity. }
      assert (Hmax : forall t' rest', c :: run ++ rest = t' ++ rest' ->
                forallb bare_class t' = true -> delimited rest' ->
                length t' <= length (c :: run)).
      { intros t' rest' Es Ht' Hd'. destruct t' as [|d t']; [simpl; lia|].
        simpl in Es. injection Es as <- Es. simpl in Ht'.
        apply andb_true_iff in Ht' as [_ Ht'].
        rewrite <- (forallb_ext_in _ _ _ unquoted_char_bare_class) in Ht'.
        pose proof (longest_delimited_max _ _ _ _ L t' rest' Es Ht'
                      (delimited_dec _ Hd')).
        simpl. lia. }
      split; [discriminate|]. split; [|split; [exact Hmax|]].
      * exists rest. split; [reflexivity|]. split; [assumption|].
        apply delimitedb_spec. assumption.
      * intros Hd'.
        pose proof (ReFacts.take_drop_while bare_class (c :: run ++ rest)) as Etd.
        pose proof (Hmax _ _ (eq_sym Etd)
                      (forallb_take_while bare_class _) Hd') as H1.
        pose proof (length_take_while_prefix bare_class (c :: run) rest Hall) as H2.
        change ((c :: run) ++ rest) with (c :: run ++ rest) in H2.
        destruct (app_eq_length (c :: run) rest _ _ (eq_sym Etd)) as [E1 _];
          [lia | exact E1].
    + destruct (lit DQUOTE c); [|discriminate E].
      destruct (quoted_split s0) as [[body rest]|]; [|discriminate E].
      destruct (delimitedb rest); [|discriminate E].
      injection E as <- <- <-. discriminate Ht.
  - unfold tokenize. rewrite tokenize_within_eq. cbn [app].
    rewrite word_split_command by (assumption || reflexivity).
    assert (Hnl : ~ In NEWLINE u).
    { rewrite <- (forallb_ext_in _ _ _ unquoted_char_bare_class) in Hcls.
      apply forallb_unquoted_no_newline. assumption. }
    rewrite strip_space by assumption.
    destruct u as [|c u']; [congruence|].
    rewrite length_app. simpl. rewrite Nat.add_succ_r.
    rewrite tokenize_params_eq.
    pose proof (next_param_render (Bare (c :: u')) []) as Hnext.
    simpl in Hnext. rewrite app_nil_r in Hnext.
    rewrite Hnext; [|split; [discriminate | assumption] | discriminate].
    rewrite strip_nil. destruct (length n + S (length u')); reflexivity.
Qed.

Lemma unquoted_token_longest_run_witness :
  (of_string "abc" <> [] /\
   (exists rest, of_string "abc def" = of_string "abc" ++ rest /\
                 forallb bare_class (of_string "abc") = true /\ delimited rest) /\
   (forall t' rest', of_string "abc def" = t' ++ rest' ->
      forallb bare_class t' = true -> delimited rest' ->
      length t' <= length (of_string "abc")) /\
   (delimited (drop_while bare_class (of_string "abc def")) ->
    of_string "abc" = take_while bare_class (of_string "abc def"))) /\
  tokenize (of_string "add" ++ [SPACE] ++ [97; 160; 98]%N) =
    Some (Return [of_string "add"; [97; 160; 98]%N]).
Proof.
  apply (unquoted_token_longest_run (of_string "abc def")
           {| Re.m_caps := [(3, of_string "def"); (1, of_string "abc")];
              Re.m_text := of_string "abc def";
              Re.m_rest := [] |});
    [reflexivity | reflexivity | reflexivity | discriminate | reflexivity |].
  intros c r [= <- _]. reflexivity.
Defined.

(** C3, as stated, fails: the space is not below 0x20, yet it ends the
    unquoted token. *)
Lemma unquoted_token_excludes_space :
  bare_class_lt_0x20 SPACE = true /\
  take_while bare_class_lt_0x20 (of_string "a b") = of_string "a b" /\
  Re.group 1 ∘ Re.m_caps <$> Re.re_match PARAM_RE (of_string "a b") =
    Some (Some (of_string "a")) /\
  tokenize (of_string "cmd a b") =
    Some (Return [of_string "cmd"; of_string "a"; of_string "b"]).
Proof. repeat split. Qed.

(** ** Failures and termination of the tokenizer *)

Lemma length_strip s : length (strip s) <= length s.
Proof.
  unfold strip.
  pose proof (ReFacts.length_take_while dot (drop_while whitespace s)).
  pose proof (ReFacts.length_drop_while whitespace s). lia.
Qed.

Lemma quoted_split_escaped_inv s body rest :
  quoted_split s = Some (body, rest) -> escaped_text body.
Proof.
  remember (length s) as n eqn:Hn. revert s Hn body rest.
  induction n as [n IH] using lt_wf_ind. intros s Hn body rest.
  destruct s as [|c s]; [discriminate|]. cbn [quoted_split].
  destruct (lit DQUOTE c) eqn:Q.
  - intros [= <- <-]. constructor.
  - destruct (lit BACKSLASH c) eqn:B.
    + destruct s as [|d s]; [discriminate|].
      destruct (dot d) eqn:D; [|discriminate].
      destruct (quoted_split s) as [[b r]|] eqn:E; [|discriminate].
      intros [= <- <-]. simpl.
      replace c with BACKSLASH by (symmetry; class_arith).
      apply escaped_pair; [class_arith|].
      apply (IH (length s)) with (s := s) (rest := r);
        [simpl in Hn; lia | reflexivity | assumption].
    + destruct (quoted_split s) as [[b r]|] eqn:E; [|discriminate].
      intros [= <- <-]. simpl.
      apply escaped_plain; [class_arith | class_arith |].
      apply (IH (length s)) with (s := s) (rest := r);
        [simpl in Hn; lia | reflexivity | assumption].
Qed.

Lemma render_Bare_Quoted t q rest rest' :
  token_form (Bare t) -> render (Bare t) ++ rest <> render (Quoted q) ++ rest'.
Proof.
  simpl. intros [Hne Ht] E. destruct t as [|c t]; [congruence|].
  simpl in E, Ht. injection E as -> _. discriminate Ht.
Qed.

(** A turn of the loop reads a parameter of one of the two forms, up to a
    whitespace or the end, the longest there is. *)
Lemma next_param_reads_inv s arg r :
  next_param s = Some (arg, r) ->
  exists p rest, reads s p rest /\ arg = value p /\ r = strip rest.
Proof.
  unfold next_param, param_split. destruct s as [|c s0]; [discriminate|].
  destruct (unquoted_char c) eqn:U.
  - destruct (longest_delimited unquoted_char s0) as [[run rest]|] eqn:L;
      [|discriminate].
    intros [= <- <-].
    destruct (longest_delimited_spec _ _ _ _ L) as (-> & Hrun & Hd).
    exists (Bare (c :: run)), rest. split; [|auto].
    assert (Hform : token_form (Bare (c :: run))).
    { split; [discriminate|].
      rewrite <- (forallb_ext_in _ _ _ unquoted_char_bare_class).
      simpl. rewrite U, Hrun. reflexivity. }
    split; [reflexivity|]. split; [assumption|].
    split; [apply delimitedb_spec; assumption|].
    intros [t'|q'] rest' E Hp' Hd'.
    + destruct Hp' as [Hne' Ht']. destruct t' as [|d t']; [congruence|].
      simpl in E. injection E as <- E. simpl in Ht'.
      apply andb_true_iff in Ht' as [_ Ht'].
      rewrite <- (forallb_ext_in _ _ _ unquoted_char_bare_class) in Ht'.
      pose proof (longest_delimited_max _ _ _ _ L t' rest' E Ht'
                    (delimited_dec _ Hd')).
      simpl. lia.
    + destruct (render_Bare_Quoted (c :: run) q' rest rest' Hform E).
  - destruct (lit DQUOTE c) eqn:Q; [|discriminate].
    destruct (quoted_split s0) as [[body rest]|] eqn:E; [|discriminate].
    destruct (delimitedb rest) eqn:D; [|discriminate].
    intros [= <- <-]. exists (Quoted body), rest.
    pose proof (quoted_split_escaped_inv _ _ _ E) as Hb.
    apply lit_spec in Q. subst c.
    pose proof (quoted_split_app _ _ _ E) as Es. subst s0.
    split; [|split; [apply drop_backslashes_escaped; assumption | reflexivity]].
    split; [simpl; rewrite <- app_assoc; reflexivity|].
    split; [assumption|]. split; [apply delimitedb_spec; assumption|].
    intros [t'|q'] rest' E' Hp' Hd'.
    + symmetry in E'. change (DQUOTE :: body ++ DQUOTE :: rest)
        with (DQUOTE :: body ++ [DQUOTE] ++ rest) in E'.
      rewrite app_assoc in E'.
      destruct (render_Bare_Quoted t' body rest' rest Hp' E').
    + simpl in E'. injection E' as E'. rewrite <- app_assoc in E'. cbn [app] in E'.
      pose proof (quoted_split_escaped q' rest' Hp') as Hq'.
      rewrite <- E', E in Hq'. injection Hq' as <- <-. lia.
Qed.

Lemma next_param_inv s arg r :
  next_param s = Some (arg, r) ->
  exists p rest,
    s = render p ++ rest /\ token_form p /\ delimited rest /\
    arg = value p /\ r = strip rest.
Proof.
  intros H.
  destruct (next_param_reads_inv _ _ _ H) as (p & rest & (E & Hp & Hd & _) & Ha & Hr).
  exists p, rest. auto.
Qed.

(** The parameter that is read is the one the loop takes. *)
Lemma next_param_reads s p rest :
  reads s p rest -> next_param s = Some (value p, strip rest).
Proof.
  intros (-> & Hp & Hd & Hmax). apply delimited_dec in Hd.
  destruct p as [t|q].
  - unfold next_param, param_split. destruct Hp as [Hne Ht].
    destruct t as [|c t]; [congruence|].
    rewrite <- (forallb_ext_in _ _ _ unquoted_char_bare_class) in Ht.
    simpl in Ht |- *. apply andb_true_iff in Ht as [Hc Ht]. rewrite Hc.
    rewrite longest_delimited_of_max; [reflexivity | assumption | assumption |].
    intros run' rest' E Hrun' Hd'.
    assert (Hform : token_form (Bare (c :: run'))).
    { split; [discriminate|].
      rewrite <- (forallb_ext_in _ _ _ unquoted_char_bare_class).
      simpl. rewrite Hc, Hrun'. reflexivity. }
    pose proof (Hmax (Bare (c :: run')) rest') as H. simpl in H.
    rewrite E in H. specialize (H eq_refl Hform).
    apply delimitedb_spec in Hd'. specialize (H Hd'). lia.
  - simpl. rewrite <- app_assoc. cbn [app].
    apply next_param_quoted; assumption.
Qed.

Lemma next_param_None_iff s :
  next_param s = None <-> ~ unquoted_form s /\ ~ quoted_form s.
Proof.
  split.
  - intros H. split.
    + intros (t & rest & -> & [Hne Ht] & Hd). apply delimited_dec in Hd.
      unfold next_param, param_split in H. destruct t as [|c t]; [congruence|].
      rewrite <- (forallb_ext_in _ _ _ unquoted_char_bare_class) in Ht.
      simpl in H, Ht. apply andb_true_iff in Ht as [Hc Ht]. rewrite Hc in H.
      destruct (longest_delimited unquoted_char (t ++ rest)) as [[run r]|] eqn:L;
        [discriminate H|].
      pose proof (longest_delimited_None _ _ L t rest eq_refl Ht). congruence.
    + intros (q & rest & -> & Hp & Hd). apply delimited_dec in Hd.
      simpl in H. rewrite <- app_assoc in H. cbn [app] in H.
      rewrite (next_param_quoted q rest Hp Hd) in H. discriminate H.
  - intros [Hu Hq]. destruct (next_param s) as [[arg r]|] eqn:E; [|reflexivity].
    destruct (next_param_inv _ _ _ E) as ([t|q] & rest & -> & Hp & Hd & _).
    + destruct Hu. exists t, rest. auto.
    + destruct Hq. exists q, rest. auto.
Qed.

Lemma render_length p : token_form p -> 0 < length (render p).
Proof.
  destruct p as [t|q]; simpl; [|lia].
  intros [Hne _]. destruct t; [congruence | simpl; lia].
Qed.

Lemma next_param_shorter s arg r :
  next_param s = Some (arg, r) -> length r < length s.
Proof.
  intros H. destruct (next_param_inv _ _ _ H) as (p & rest & -> & Hp & _ & _ & ->).
  rewrite length_app. pose proof (render_length p Hp).
  pose proof (length_strip rest). lia.
Qed.

Lemma word_split_inv line n r :
  word_split line = Some (n, r) ->
  exists rest,
    line = n ++ rest /\ command_name n = true /\ delimited rest /\ r = strip rest.
Proof.
  unfold word_split. destruct line as [|c s]; [discriminate|].
  destruct (lower c) eqn:L; [|discriminate].
  destruct (delimitedb (drop_while name_char s)) eqn:D; [|discriminate].
  intros [= <- <-]. exists (drop_while name_char s).
  simpl. rewrite ReFacts.take_drop_while, L, forallb_take_while.
  repeat split. apply delimitedb_spec. assumption.
Qed.

Lemma word_split_None_iff line :
  word_split line = None <-> ~ begins_with_command line.
Proof.
  split.
  - intros H (n & rest & -> & Hn & Hd). apply delimitedb_spec in Hd.
    rewrite (word_split_command n rest Hn Hd) in H. discriminate H.
  - intros H. destruct (word_split line) as [[n r]|] eqn:E; [|reflexivity].
    destruct (word_split_inv _ _ _ E) as (rest & -> & Hn & Hd & _).
    destruct H. exists n, rest. auto.
Qed.

Lemma word_split_shorter line n r :
  word_split line = Some (n, r) -> length r < length line.
Proof.
  intros H. destruct (word_split_inv _ _ _ H) as (rest & -> & Hn & _ & ->).
  rewrite length_app. pose proof (length_strip rest).
  destruct n; [discriminate Hn | simpl; lia].
Qed.

(** The loop ends within one turn per character of the remainder, with the
    arguments or with the failure of a parameter. *)
Lemma tokenize_params_total n :
  forall s result, length s <= n ->
    exists o,
      (forall fuel, n <= fuel -> tokenize_params fuel result s = Some o) /\
      (o = Raise InvalidArgument \/ exists args, o = Return (result ++ args)).
Proof.
  induction n as [|n IH]; intros s result Hlen.
  - destruct s; [|simpl in Hlen; lia]. exists (Return result). split.
    + intros fuel _. destruct fuel; reflexivity.
    + right. exists []. rewrite app_nil_r. reflexivity.
  - destruct s as [|c s].
    { exists (Return result). split.
      + intros fuel _. destruct fuel; reflexivity.
      + right. exists []. rewrite app_nil_r. reflexivity. }
    destruct (next_param (c :: s)) as [[arg r]|] eqn:E.
    + pose proof (next_param_shorter _ _ _ E) as Hr.
      destruct (IH r (result ++ [arg])) as (o & Ho & Hkind);
        [simpl in *; lia|].
      exists o. split.
      * intros fuel Hfuel. destruct fuel as [|fuel]; [lia|].
        rewrite tokenize_params_eq, E. apply Ho. lia.
      * destruct Hkind as [-> | (args & ->)]; [left; reflexivity|].
        right. exists (arg :: args). rewrite <- app_assoc. reflexivity.
    + exists (Raise InvalidArgument). split; [|left; reflexivity].
      intros fuel Hfuel. destruct fuel as [|fuel]; [lia|].
      rewrite tokenize_params_eq, E. reflexivity.
Qed.

Lemma tokenize_ends line :
  exists o,
    (forall fuel, length line <= fuel -> tokenize_within fuel line = Some o) /\
    (o = Raise InvalidCommand \/ o = Raise InvalidArgument \/
     exists command args, o = Return (command :: args)).
Proof.
  destruct (word_split line) as [[n r]|] eqn:E.
  - pose proof (word_split_shorter _ _ _ E) as Hr.
    destruct (tokenize_params_total (length line) r [n]) as (o & Ho & Hkind);
      [lia|].
    exists o. split.
    + intros fuel Hfuel. rewrite tokenize_within_eq, E.
      destruct (tokenize_params_total fuel r [n]) as (o' & Ho' & _); [lia|].
      rewrite (Ho' fuel) by lia.
      rewrite <- (Ho' (fuel + length line)) by lia.
      apply Ho. lia.
    + destruct Hkind as [-> | (args & ->)]; [auto|].
      right. right. exists n, args. reflexivity.
  - exists (Raise InvalidCommand). split; [|auto].
    intros fuel _. rewrite tokenize_within_eq, E. reflexivity.
Qed.

Lemma next_param_nil : next_param [] = None.
Proof. reflexivity. Qed.

Lemma reach_snoc r s arg s' :
  reach r s -> next_param s = Some (arg, s') -> reach r s'.
Proof.
  induction 1 as [s|r a r' s Hstep _ IH]; intros H.
  - eapply reach_step; [eassumption | apply reach_here].
  - eapply reach_step; [eassumption | apply IH; assumption].
Qed.

Lemma reach_raise r s :
  reach r s -> s <> [] -> next_param s = None ->
  forall fuel result, length r <= fuel ->
    tokenize_params fuel result r = Some (Raise InvalidArgument).
Proof.
  induction 1 as [s|r a r' s Hstep _ IH]; intros Hne Hnone fuel result Hfuel.
  - destruct s as [|c s]; [congruence|].
    destruct fuel as [|fuel]; [simpl in Hfuel; lia|].
    rewrite tokenize_params_eq, Hnone. reflexivity.
  - destruct r as [|c r]; [discriminate Hstep|].
    destruct fuel as [|fuel]; [simpl in Hfuel; lia|].
    rewrite tokenize_params_eq, Hstep.
    pose proof (next_param_shorter _ _ _ Hstep).
    apply IH; [assumption | assumption | simpl in *; lia].
Qed.

Lemma raise_reach fuel :
  forall result r,
    tokenize_params fuel result r = Some (Raise InvalidArgument) ->
    exists s, reach r s /\ s <> [] /\ next_param s = None.
Proof.
  induction fuel as [|fuel IH]; intros result r H.
  - destruct r; discriminate H.
  - destruct r as [|c r]; [discriminate H|].
    rewrite tokenize_params_eq in H.
    destruct (next_param (c :: r)) as [[arg r']|] eqn:E.
    + destruct (IH _ _ H) as (s & Hs & Hne & Hnone).
      exists s. split; [|auto]. eapply reach_step; eassumption.
    + exists (c :: r). split; [apply reach_here|]. split; [discriminate | assumption].
Qed.

Lemma read_segment_reach line s :
  read_segment line s ->
  exists n r, word_split line = Some (n, r) /\ reach r s.
Proof.
  induction 1 as [n rest -> Hn Hd | s p rest _ IH Hreads].
  - exists n, (strip rest). split; [|apply reach_here].
    apply word_split_command; [assumption | apply delimitedb_spec; assumption].
  - destruct IH as (n & r & Hw & Hr). exists n, r. split; [assumption|].
    eapply reach_snoc; [eassumption|]. apply (next_param_reads _ _ _ Hreads).
Qed.

Lemma reach_read_segment line r s :
  reach r s -> read_segment line r -> read_segment line s.
Proof.
  induction 1 as [s|r a r' s Hstep _ IH]; intros Hseg; [assumption|].
  apply IH.
  destruct (next_param_reads_inv _ _ _ Hstep) as (p & rest & Hreads & _ & ->).
  eapply read_next; eassumption.
Qed.

Lemma tokenize_InvalidCommand_iff line :
  tokenize line = Some (Raise InvalidCommand) <-> word_split line = None.
Proof.
  unfold tokenize. rewrite tokenize_within_eq.
  destruct (word_split line) as [[n r]|] eqn:E; [|tauto].
  split; [|discriminate]. intros H.
  destruct (tokenize_params_total (length line) r [n]) as (o & Ho & Hkind).
  { pose proof (word_split_shorter _ _ _ E). lia. }
  rewrite (Ho _ (Nat.le_refl _)) in H. injection H as ->.
  destruct Hkind as [Hk | (args & Hk)]; discriminate Hk.
Qed.

Lemma tokenize_InvalidArgument_iff line :
  tokenize line = Some (Raise InvalidArgument) <->
  exists s, read_segment line s /\ s <> [] /\ next_param s = None.
Proof.
  unfold tokenize. rewrite tokenize_within_eq. split.
  - destruct (word_split line) as [[n r]|] eqn:E; [|discriminate].
    intros H. destruct (raise_reach _ _ _ H) as (s & Hs & Hne & Hnone).
    exists s. split; [|auto].
    apply (reach_read_segment line r s Hs).
    destruct (word_split_inv _ _ _ E) as (rest & -> & Hn & Hd & ->).
    eapply read_first; [reflexivity | assumption | assumption].
  - intros (s & Hseg & Hne & Hnone).
    destruct (read_segment_reach _ _ Hseg) as (n & r & Hw & Hr). rewrite Hw.
    apply (reach_raise r s Hr Hne Hnone).
    pose proof (word_split_shorter _ _ _ Hw). lia.
Qed.

Lemma In_take_while p (s : str) c : In c (take_while p s) -> In c s /\ p c = true.
Proof.
  induction s as [|d s IH]; simpl; [tauto|].
  destruct (p d) eqn:E; simpl; [|tauto].
  intros [<- | H]; [auto | destruct (IH H); auto].
Qed.

Lemma In_drop_while p (s : str) c : In c (drop_while p s) -> In c s.
Proof.
  induction s as [|d s IH]; simpl; [tauto|].
  destruct (p d); simpl; tauto.
Qed.

Lemma strip_drop_while x : ~ In NEWLINE x -> strip x = drop_while whitespace x.
Proof.
  intros H. unfold strip. apply take_while_dot.
  intros Hin. apply H. apply In_drop_while in Hin. assumption.
Qed.

(** A segment holds characters of the line only. *)
Lemma segment_In line s : segment line s -> forall c, In c s -> In c line.
Proof.
  induction 1 as [n rest -> Hn Hd | s p rest _ IH (-> & _)]; intros c Hc.
  - apply In_drop_while in Hc. apply in_app_iff. auto.
  - apply In_drop_while in Hc. apply IH. apply in_app_iff. auto.
Qed.

(** On a line without newline, the code reads the segments of the line. *)
Lemma read_segment_iff line s :
  ~ In NEWLINE line -> (read_segment line s <-> segment line s).
Proof.
  intros Hnl. split.
  - induction 1 as [n rest -> Hn Hd | s p rest _ IH Hreads].
    + rewrite strip_drop_while
        by (intros Hin; apply Hnl; apply in_app_iff; auto).
      eapply segment_first; [reflexivity | assumption | assumption].
    + rewrite strip_drop_while.
      * eapply segment_next; eassumption.
      * intros Hin. apply Hnl. apply (segment_In line s IH).
        destruct Hreads as (-> & _). apply in_app_iff. auto.
  - induction 1 as [n rest -> Hn Hd | s p rest Hseg IH Hreads].
    + rewrite <- strip_drop_while
        by (intros Hin; apply Hnl; apply in_app_iff; auto).
      eapply read_first; [reflexivity | assumption | assumption].
    + rewrite <- strip_drop_while.
      * eapply read_next; eassumption.
      * intros Hin. apply Hnl. apply (segment_In line s Hseg).
        destruct Hreads as (-> & _). apply in_app_iff. auto.
Qed.

(** An unquoted token that ends where its class of characters ends is the
    parameter read. *)
Lemma reads_Bare t rest :
  token_form (Bare t) -> delimited rest ->
  (forall c r, rest = c :: r -> bare_class c = false) ->
  reads (t ++ rest) (Bare t) rest.
Proof.
  intros Hp Hd Hh. split; [reflexivity|]. split; [assumption|].
  split; [assumption|]. intros [t'|q'] rest' E Hp' Hd'.
  - simpl in *. destruct Hp as [_ Ht]. destruct Hp' as [_ Ht'].
    pose proof (length_take_while_prefix bare_class t' rest' Ht') as H.
    rewrite <- E, take_while_app in H; assumption.
  - destruct (render_Bare_Quoted t q' rest rest' Hp E).
Qed.

(** C7, as the code has it: [tokenize] fails in two ways only. It fails
    with the invalid command failure exactly when the line does not begin,
    without leading whitespace, with a command name [[a-z][a-z0-9_]*] that
    ends at a whitespace or at the end of the line. It fails with the
    invalid argument failure exactly when some parameter segment, as it is
    read (what is handed on stops at the first newline), is not empty and
    has neither the unquoted nor the quoted form; on a line without
    newline these are the parameter segments of the line. *)
Theorem tokenize_failure_kinds line :
  (tokenize line = Some (Raise InvalidCommand) <-> ~ begins_with_command line) /\
  (tokenize line = Some (Raise InvalidArgument) <->
   exists s, read_segment line s /\ s <> [] /\
             ~ unquoted_form s /\ ~ quoted_form s) /\
  (~ In NEWLINE line ->
   (tokenize line = Some (Raise InvalidArgument) <->
    exists s, segment line s /\ s <> [] /\
              ~ unquoted_form s /\ ~ quoted_form s)) /\
  (exists o, tokenize line = Some o /\
     (o = Raise InvalidCommand \/ o = Raise InvalidArgument \/
      exists command args, o = Return (command :: args))).
Proof.
  split; [|split; [|split]].
  - rewrite tokenize_InvalidCommand_iff. apply word_split_None_iff.
  - rewrite tokenize_InvalidArgument_iff.
    split; intros (s & Hseg & Hne & H); exists s;
      (split; [assumption|]); (split; [assumption|]);
      apply next_param_None_iff; assumption.
  - intros Hnl. rewrite tokenize_InvalidArgument_iff.
    split; intros (s & Hseg & Hne & H); exists s;
      (split; [apply (read_segment_iff line s Hnl); assumption|]);
      (split; [assumption|]); apply next_param_None_iff; assumption.
  - destruct (tokenize_ends line) as (o & Ho & Hkind).
    exists o. split; [apply Ho; reflexivity | assumption].
Qed.

Lemma tokenize_failure_kinds_witness :
  tokenize (of_string "  ping") = Some (Raise InvalidCommand) /\
  tokenize (of_string "cmd " ++ DQUOTE :: of_string "abc") =
    Some (Raise InvalidArgument).
Proof.
  split.
  - apply (proj1 (tokenize_failure_kinds (of_string "  ping"))).
    intros (n & rest & E & Hn & _).
    destruct n as [|c n]; [discriminate Hn|].
    injection E as <- _. discriminate Hn.
  - apply (proj1 (proj2 (proj2 (tokenize_failure_kinds
             (of_string "cmd " ++ DQUOTE :: of_string "abc"))))).
    { simpl. intros H. repeat destruct H as [H | H]; try discriminate H.
      destruct H. }
    exists (DQUOTE :: of_string "abc"). split; [|split; [discriminate|split]].
    + apply (segment_first _ (of_string "cmd") (SPACE :: DQUOTE :: of_string "abc"));
        [reflexivity | reflexivity | right; eexists _, _; split; reflexivity].
    + intros (t & rest & E & [Hne Ht] & _).
      destruct t as [|c t]; [congruence|].
      injection E as <- _. discriminate Ht.
    + intros (q & rest & E & _ & _). simpl in E.
      injection E as E. apply (f_equal (fun l => existsb (N.eqb DQUOTE) l)) in E.
      rewrite <- app_assoc, existsb_app in E. simpl in E.
      rewrite orb_true_r in E. discriminate E.
Defined.

(** C7, as stated, fails: on the line add a b, newline, double quote, x
    the parameter segment after the newline has neither form, yet
    [tokenize] returns the tokens before the newline. *)
Lemma tokenize_unread_segment :
  segment (of_string "add a b" ++ [NEWLINE; DQUOTE; 120]%N) [DQUOTE; 120]%N /\
  ~ unquoted_form [DQUOTE; 120]%N /\ ~ quoted_form [DQUOTE; 120]%N /\
  tokenize (of_string "add a b" ++ [NEWLINE; DQUOTE; 120]%N) =
    Some (Return [of_string "add"; of_string "a"; of_string "b"]).
Proof.
  split; [|split; [|split; [|reflexivity]]].
  - apply (segment_next _ (of_string "b" ++ [NEWLINE; DQUOTE; 120]%N)
             (Bare (of_string "b")) [NEWLINE; DQUOTE; 120]%N).
    + apply (segment_next _ (of_string "a b" ++ [NEWLINE; DQUOTE; 120]%N)
               (Bare (of_string "a"))
               (of_string " b" ++ [NEWLINE; DQUOTE; 120]%N)).
      * apply (segment_first _ (of_string "add")
                 (of_string " a b" ++ [NEWLINE; DQUOTE; 120]%N));
          [reflexivity | reflexivity | right; eexists _, _; split; reflexivity].
      * apply (reads_Bare (of_string "a"));
          [split; [discriminate | reflexivity]
          | right; eexists _, _; split; reflexivity
          | intros c r [= <- _]; reflexivity].
    + apply (reads_Bare (of_string "b"));
        [split; [discriminate | reflexivity]
        | right; eexists _, _; split; reflexivity
        | intros c r [= <- _]; reflexivity].
  - intros (t & rest & E & [Hne Ht] & _).
    destruct t as [|c t]; [congruence|].
    injection E as <- _. discriminate Ht.
  - intros (q & rest & E & _ & _). simpl in E.
    injection E as E. apply (f_equal (fun l => existsb (N.eqb DQUOTE) l)) in E.
    rewrite <- app_assoc, existsb_app in E. simpl in E.
    rewrite orb_true_r in E. discriminate E.
Qed.



(** ** The command name of a pattern *)

Lemma match_at_COMMAND_RE whole s :
  Re.match_at whole COMMAND_RE s =
  match s with
  | c :: s' =>
      if command_char c
      then Some {| Re.m_caps := [(1, c :: take_while command_char s')];
                   Re.m_text := c :: take_while command_char s';
                   Re.m_rest := drop_while command_char s' |}
      else None
  | [] => None
  end.
Proof.
  unfold Re.match_at, COMMAND_RE.
  rewrite ReFacts.m_Group, ReFacts.m_Plus, ReFacts.m_Class.
  destruct s as [|c s']; [reflexivity|].
  destruct (command_char c); [|reflexivity].
  erewrite ReFacts.m_Star_Class_first; [reflexivity|].
  cbv beta. rewrite ReFacts.consumed_cons_drop_while. reflexivity.
Qed.

Lemma command_of_eq pattern :
  command_of pattern =
  match drop_while (fun c => negb (command_char c)) pattern with
  | [] => None
  | s => Some (take_while command_char s)
  end.
Proof.
  unfold command_of, Re.re_search. generalize pattern at 1 as whole.
  induction pattern as [|c s IH]; intros whole; [reflexivity|].
  cbn [Re.search_from drop_while]. rewrite match_at_COMMAND_RE.
  destruct (command_char c) eqn:E; cbn [negb].
  - simpl. rewrite E. reflexivity.
  - apply IH.
Qed.

Lemma command_char_iff c : command_char c = true <-> lowercase_or_underscore c.
Proof. apply command_char_spec. Qed.

Lemma command_of_None pattern :
  (forall c, In c pattern -> ~ lowercase_or_underscore c) ->
  command_of pattern = None.
Proof.
  intros H. rewrite command_of_eq.
  induction pattern as [|c s IH]; [reflexivity|]. simpl.
  destruct (command_char c) eqn:E.
  - destruct (H c (or_introl eq_refl)). apply command_char_iff. assumption.
  - simpl. apply IH. intros d Hd. apply H. right. assumption.
Qed.

Lemma command_of_leftmost_run pattern run :
  leftmost_run pattern run -> command_of pattern = Some run.
Proof.
  intros (before & after & -> & Hb & Hne & Hr & Ha). rewrite command_of_eq.
  induction Hb as [|c before Hc Hb IH]; cbn [app drop_while].
  - destruct run as [|c run]; [congruence|]. cbn [app drop_while].
    inversion Hr as [|? ? Hc Hrun]; subst.
    apply command_char_iff in Hc. rewrite Hc. cbn [negb take_while].
    rewrite Hc. f_equal. f_equal. apply take_while_app.
    + clear - Hrun. induction Hrun as [|d run Hd _ IH]; simpl; [reflexivity|].
      apply command_char_iff in Hd. rewrite Hd, IH. reflexivity.
    + intros d r E. apply not_true_is_false. intros Hd.
      apply (Ha d r E). apply command_char_iff. assumption.
  - replace (command_char c) with false; [apply IH|].
    symmetry. apply not_true_is_false. intros H. apply Hc.
    apply command_char_iff. assumption.
Qed.

(** ** The tables *)

Section RegistryFacts.
Context {handler : Type} (compiles : str -> bool).
Implicit Types (t : tables handler) (d : dict handler) (r : registration handler).

Lemma dict_has_get k d : dict_has k d = true <-> exists v, dict_get k d = Some v.
Proof.
  unfold dict_has. destruct (dict_get k d) as [v|].
  - split; eauto.
  - split; [discriminate | intros (v & H); discriminate H].
Qed.

Lemma dict_set_absent k v d :
  dict_has k d = false -> dict_set k v d = d ++ [(k, v)].
Proof.
  unfold dict_has. induction d as [|[k' v'] d IH]; simpl; [reflexivity|].
  destruct (decide (k = k')); [discriminate|]. intros H. rewrite IH; auto.
Qed.

Lemma dict_get_app k d d' :
  dict_get k (d ++ d') =
  match dict_get k d with
  | Some v => Some v
  | None => dict_get k d'
  end.
Proof.
  induction d as [|[k' v'] d IH]; simpl; [reflexivity|].
  destruct (decide (k = k')); [reflexivity | apply IH].
Qed.

(** The command set after a call, whatever the call returns. *)
Lemma handle_request_commands pattern auth func t :
  mpd_commands (handle_request compiles pattern auth func t).1 =
  match command_of pattern with
  | Some nm => {[ {| name := nm; auth_required := auth |} ]} ∪ mpd_commands t
  | None => mpd_commands t
  end.
Proof.
  unfold handle_request, command_of.
  destruct (Re.re_search COMMAND_RE pattern);
    destruct (compiles pattern); try destruct (dict_has _ _); reflexivity.
Qed.

(** The pattern table after a call. *)
Lemma handle_request_handlers pattern auth func t :
  request_handlers (handle_request compiles pattern auth func t).1 =
  if compiles pattern && negb (dict_has pattern (request_handlers t))
  then request_handlers t ++ [(pattern, func)]
  else request_handlers t.
Proof.
  unfold handle_request. destruct (compiles pattern); [|reflexivity].
  destruct (dict_has pattern (request_handlers t)) eqn:E; [reflexivity|].
  simpl. apply dict_set_absent. assumption.
Qed.

Lemma handle_request_outcome pattern auth func t :
  (handle_request compiles pattern auth func t).2 =
  if compiles pattern
  then if dict_has pattern (request_handlers t)
       then Raise ValueError else Return func
  else Raise re_error.
Proof.
  unfold handle_request. destruct (compiles pattern); [|reflexivity].
  destruct (dict_has pattern (request_handlers t)); reflexivity.
Qed.

Lemma handle_request_Return pattern auth func t t' f' :
  handle_request compiles pattern auth func t = (t', Return f') ->
  compiles pattern = true /\ dict_has pattern (request_handlers t) = false /\
  f' = func /\
  request_handlers t' = request_handlers t ++ [(pattern, func)].
Proof.
  intros H.
  pose proof (handle_request_outcome pattern auth func t) as Ho.
  pose proof (handle_request_handlers pattern auth func t) as Hh.
  rewrite H in Ho, Hh. simpl in Ho, Hh.
  destruct (compiles pattern); [|discriminate Ho].
  destruct (dict_has pattern (request_handlers t)); [discriminate Ho|].
  injection Ho as ->. auto.
Qed.

Lemma register_all_cons r rs t :
  register_all compiles (r :: rs) t = register_all compiles rs (register compiles t r).
Proof. reflexivity. Qed.

Lemma register_handlers t r :
  exists new, request_handlers (register compiles t r) = request_handlers t ++ new.
Proof.
  unfold register. rewrite handle_request_handlers.
  destruct (_ && _); [eauto|]. exists []. rewrite app_nil_r. reflexivity.
Qed.

Lemma register_all_handlers rs :
  forall t, exists new,
    request_handlers (register_all compiles rs t) = request_handlers t ++ new.
Proof.
  induction rs as [|r rs IH]; intros t.
  - exists []. rewrite app_nil_r. reflexivity.
  - rewrite register_all_cons.
    destruct (IH (register compiles t r)) as (new & ->).
    destruct (register_handlers t r) as (new' & ->).
    exists (new' ++ new). rewrite app_assoc. reflexivity.
Qed.

Lemma register_commands_mono t r :
  mpd_commands t ⊆ mpd_commands (register compiles t r).
Proof.
  unfold register. rewrite handle_request_commands.
  destruct (command_of _); set_solver.
Qed.

Lemma register_all_commands_mono rs :
  forall t, mpd_commands t ⊆ mpd_commands (register_all compiles rs t).
Proof.
  induction rs as [|r rs IH]; intros t; [reflexivity|].
  rewrite register_all_cons. etrans; [apply register_commands_mono | apply IH].
Qed.

End RegistryFacts.

(** ** Registration: the command set *)

Section CommandSet.
Context {handler : Type} (compiles : str -> bool).
Implicit Types (t : tables handler) (d : dict handler) (r : registration handler).

Lemma register_commands t r :
  mpd_commands (register compiles t r) =
  match command_of r.1.1 with
  | Some nm => {[ {| name := nm; auth_required := r.1.2 |} ]} ∪ mpd_commands t
  | None => mpd_commands t
  end.
Proof. apply handle_request_commands. Qed.

Lemma register_all_same_command nm auth rs :
  Forall (fun r => command_of r.1.1 = Some nm /\ r.1.2 = auth) rs ->
  forall t,
    {| name := nm; auth_required := auth |} ∈ mpd_commands t ->
    mpd_commands (register_all compiles rs t) = mpd_commands t.
Proof.
  induction 1 as [|r rs [Hnm Ha] _ IH]; intros t Hin; [reflexivity|].
  rewrite register_all_cons, IH.
  - rewrite register_commands, Hnm, Ha. set_solver.
  - rewrite register_commands, Hnm, Ha. set_solver.
Qed.

(** C9: registering any number of patterns that derive the same pair of a
    command name and an authentication flag leaves the command set as it
    is after the first of them. *)
Theorem register_command_idempotent t nm auth r0 rs :
  Forall (fun r => command_of r.1.1 = Some nm /\ r.1.2 = auth) (r0 :: rs) ->
  mpd_commands (register_all compiles (r0 :: rs) t) =
    mpd_commands (register compiles t r0) /\
  mpd_commands (register compiles t r0) =
    {[ {| name := nm; auth_required := auth |} ]} ∪ mpd_commands t.
Proof.
  intros H. inversion H as [|? ? [Hnm Ha] Hrs]; subst.
  assert (E : mpd_commands (register compiles t r0) =
              {[ {| name := nm; auth_required := r0.1.2 |} ]} ∪ mpd_commands t)
    by (rewrite register_commands, Hnm; reflexivity).
  split; [|assumption].
  rewrite register_all_cons.
  apply (register_all_same_command nm r0.1.2); [assumption|].
  rewrite E. set_solver.
Qed.

Lemma leftmost_run_exists pattern :
  (exists c, In c pattern /\ lowercase_or_underscore c) ->
  exists run, leftmost_run pattern run.
Proof.
  induction pattern as [|c s IH]; intros (x & Hin & Hx); [destruct Hin|].
  destruct (command_char c) eqn:E.
  - exists (c :: take_while command_char s), [], (drop_while command_char s).
    cbn [app]. rewrite ReFacts.take_drop_while.
    split; [reflexivity|]. split; [constructor|]. split; [discriminate|]. split.
    + constructor; [apply command_char_iff; assumption|].
      pose proof (forallb_take_while command_char s) as H.
      induction (take_while command_char s) as [|d l IHl]; constructor.
      * apply command_char_iff. simpl in H. apply andb_true_iff in H. tauto.
      * apply IHl. simpl in H. apply andb_true_iff in H. tauto.
    + intros d r Hd Hcls. apply command_char_iff in Hcls.
      rewrite (drop_while_head _ _ _ _ Hd) in Hcls. discriminate.
  - destruct Hin as [-> | Hin].
    { apply command_char_iff in Hx. congruence. }
    destruct IH as (run & before & after & -> & Hb & Hrest); [eauto|].
    exists run, (c :: before), after. split; [reflexivity|].
    split; [|assumption]. constructor; [|assumption].
    intros H. apply command_char_iff in H. congruence.
Qed.

(** C10: a pattern source without a lowercase letter or an underscore is
    registered in the pattern table like any other and adds nothing to
    the command set; otherwise the command name added is the leftmost
    longest run of lowercase letters and underscores of the source: it
    holds no digit and need not be the first word of the pattern. *)
Theorem command_name_of_pattern t pattern auth func :
  ((forall c, In c pattern -> ~ lowercase_or_underscore c) ->
   mpd_commands (handle_request compiles pattern auth func t).1 = mpd_commands t /\
   (compiles pattern = true -> dict_has pattern (request_handlers t) = false ->
    handle_request compiles pattern auth func t =
    ({| mpd_commands := mpd_commands t;
        request_handlers := request_handlers t ++ [(pattern, func)] |},
     Return func))) /\
  ((exists c, In c pattern /\ lowercase_or_underscore c) ->
   exists run,
     leftmost_run pattern run /\
     Forall (fun c => ~ (48 <= c <= 57)%N) run /\
     mpd_commands (handle_request compiles pattern auth func t).1 =
       {[ {| name := run; auth_required := auth |} ]} ∪ mpd_commands t) /\
  command_of (of_string "load2") = Some (of_string "load") /\
  command_of (of_string "PLAY id") = Some (of_string "id").
Proof.
  split; [|split; [|split; reflexivity]].
  - intros Hnone. pose proof (command_of_None pattern Hnone) as E. split.
    + rewrite handle_request_commands, E. reflexivity.
    + intros Hc Hfresh. unfold handle_request. unfold command_of in E.
      destruct (Re.re_search COMMAND_RE pattern); [discriminate E|].
      rewrite Hc, Hfresh, dict_set_absent by assumption. reflexivity.
  - intros Hsome. destruct (leftmost_run_exists pattern Hsome) as (run & Hrun).
    exists run. split; [assumption|]. split.
    + destruct Hrun as (_ & _ & _ & _ & _ & Hcls & _).
      eapply Forall_impl; [exact Hcls|].
      intros c [Hc | Hc]; simpl; lia.
    + rewrite handle_request_commands, (command_of_leftmost_run _ _ Hrun).
      reflexivity.
Qed.

End CommandSet.

(** ** Registration: the pattern table *)

Section DuplicatePatterns.
Context {handler : Type} (compiles : str -> bool).
Implicit Types (t : tables handler) (d : dict handler) (r : registration handler).

Lemma registered_stays t p f rs :
  dict_get p (request_handlers t) = Some f ->
  dict_get p (request_handlers (register_all compiles rs t)) = Some f.
Proof.
  intros H. destruct (register_all_handlers compiles rs t) as (new & ->).
  rewrite dict_get_app, H. reflexivity.
Qed.

Lemma handle_request_registers t p a f t1 :
  handle_request compiles p a f t = (t1, Return f) ->
  dict_get p (request_handlers t1) = Some f.
Proof.
  intros H. destruct (handle_request_Return _ _ _ _ _ _ _ H) as (_ & Hfresh & _ & ->).
  rewrite dict_get_app. unfold dict_has in Hfresh.
  destruct (dict_get p (request_handlers t)); [discriminate Hfresh|].
  simpl. destruct (decide (p = p)); [reflexivity | congruence].
Qed.

(** C2, as the code has it: once [p] is registered with [f], registering
    [p] again with any handler fails with the error of a duplicate
    pattern, the pattern table is left exactly as it was before the second
    call, with [p] still mapped to [f], and so is the command set when the
    second call gives the same authentication flag as the first. *)
Theorem duplicate_pattern_rejected t p a f t1 rs a' g :
  handle_request compiles p a f t = (t1, Return f) ->
  let t2 := register_all compiles rs t1 in
  let t' := (handle_request compiles p a' g t2).1 in
  (handle_request compiles p a' g t2).2 = Raise ValueError /\
  request_handlers t' = request_handlers t2 /\
  dict_get p (request_handlers t') = Some f /\
  (a' = a -> mpd_commands t' = mpd_commands t2).
Proof.
  intros H t2 t'.
  pose proof (handle_request_registers _ _ _ _ _ H) as Hget.
  pose proof (registered_stays _ _ _ rs Hget) as Hget2. fold t2 in Hget2.
  destruct (handle_request_Return _ _ _ _ _ _ _ H) as (Hc & _ & _ & _).
  assert (Hhas : dict_has p (request_handlers t2) = true)
    by (apply dict_has_get; eauto).
  assert (Hsame : request_handlers t' = request_handlers t2).
  { unfold t'. rewrite handle_request_handlers, Hc, Hhas. reflexivity. }
  split; [|split; [assumption|split]].
  - rewrite handle_request_outcome, Hc, Hhas. reflexivity.
  - rewrite Hsame. assumption.
  - intros ->. unfold t'. rewrite handle_request_commands.
    destruct (command_of p) as [nm|] eqn:E; [|reflexivity].
    assert ({| name := nm; auth_required := a |} ∈ mpd_commands t1).
    { replace t1 with (handle_request compiles p a f t).1 by (rewrite H; reflexivity).
      rewrite handle_request_commands, E. set_solver. }
    pose proof (register_all_commands_mono compiles rs t1) as Hmono.
    fold t2 in Hmono. set_solver.
Qed.

End DuplicatePatterns.

(** ** Dispatch *)

Section Dispatching.
Context {handler kwargs : Type} (compiles : str -> bool).
Context (pattern_match : str -> str -> option kwargs).
Implicit Types (t : tables handler) (d : dict handler).

Lemma find_handler_skip d d' line :
  (forall p h, In (p, h) d -> pattern_match p line = None) ->
  find_handler pattern_match (d ++ d') line = find_handler pattern_match d' line.
Proof.
  induction d as [|[p h] d IH]; intros H; [reflexivity|].
  simpl. rewrite (H p h (or_introl eq_refl)). apply IH.
  intros p' h' Hin. apply (H p' h'). right. assumption.
Qed.

(** What [dispatch] returns is the first entry, in the order of the table,
    whose pattern matches. *)
Lemma find_handler_first d line h kw :
  find_handler pattern_match d line = Some (h, kw) ->
  exists d1 p d2,
    d = d1 ++ (p, h) :: d2 /\ pattern_match p line = Some kw /\
    forall p' h', In (p', h') d1 -> pattern_match p' line = None.
Proof.
  induction d as [|[p f] d IH]; [discriminate|]. simpl.
  destruct (pattern_match p line) as [kw'|] eqn:E.
  - intros [= <- <-]. exists [], p, d. repeat split; [assumption|]. intros ? ? [].
  - intros H. destruct (IH H) as (d1 & p' & d2 & -> & Hm & Hnone).
    exists ((p, f) :: d1), p', d2. repeat split; [assumption|].
    intros q h' [[= <- <-] | Hin]; [assumption | eauto].
Qed.

Lemma find_handler_app d d' line :
  find_handler pattern_match (d ++ d') line =
  match find_handler pattern_match d line with
  | Some r => Some r
  | None => find_handler pattern_match d' line
  end.
Proof.
  induction d as [|[p h] d IH]; [reflexivity|]. simpl.
  destruct (pattern_match p line); [reflexivity | apply IH].
Qed.

Lemma find_handler_None d line :
  find_handler pattern_match d line = None ->
  forall p h, In (p, h) d -> pattern_match p line = None.
Proof.
  induction d as [|[p f] d IH]; simpl; [intros _ ? ? []|].
  destruct (pattern_match p line) eqn:E; [discriminate|].
  intros H q h [[= <- <-] | Hin]; [assumption | eauto].
Qed.

(** C5, on the dispatcher of the specification: the entries are kept in
    registration order and [dispatch] resolves a line to the first entry,
    in that order, whose pattern matches. So of two patterns [P1]
    registered before [P2] that both match a line, [P2]'s entry is never
    the one selected: the selected entry stands at [P1]'s place or before
    it, at [P1]'s place it is [P1] with its handler, and [P1]'s handler
    is the result whenever nothing registered before [P1] matches. *)
Theorem dispatch_first_registered
    t0 P1 a1 f1 t1 mid P2 a2 f2 t2 later line kw1 kw2 :
  handle_request compiles P1 a1 f1 t0 = (t1, Return f1) ->
  handle_request compiles P2 a2 f2 (register_all compiles mid t1) = (t2, Return f2) ->
  pattern_match P1 line = Some kw1 ->
  pattern_match P2 line = Some kw2 ->
  let t3 := register_all compiles later t2 in
  (exists between after,
     request_handlers t3 =
     request_handlers t0 ++ (P1, f1) :: between ++ (P2, f2) :: after) /\
  (exists d1 p h kw d2,
     dispatch pattern_match t3 line = Some (h, kw) /\
     request_handlers t3 = d1 ++ (p, h) :: d2 /\
     pattern_match p line = Some kw /\
     (forall p' h', In (p', h') d1 -> pattern_match p' line = None) /\
     length d1 <= length (request_handlers t0) /\
     (length d1 = length (request_handlers t0) ->
      p = P1 /\ h = f1 /\ kw = kw1)) /\
  ((forall p h, In (p, h) (request_handlers t0) -> pattern_match p line = None) ->
   dispatch pattern_match t3 line = Some (f1, kw1)).
Proof.
  intros H1 H2 Hm1 Hm2 t3.
  destruct (handle_request_Return _ _ _ _ _ _ _ H1) as (_ & _ & _ & E1).
  destruct (handle_request_Return _ _ _ _ _ _ _ H2) as (_ & _ & _ & E2).
  destruct (register_all_handlers compiles mid t1) as (between & Emid).
  destruct (register_all_handlers compiles later t2) as (after & E3).
  assert (E : request_handlers t3 =
              request_handlers t0 ++ (P1, f1) :: between ++ (P2, f2) :: after).
  { unfold t3. rewrite E3, E2, Emid, E1, <- !app_assoc. reflexivity. }
  split; [eauto|]. split.
  - unfold dispatch. rewrite E, find_handler_app.
    destruct (find_handler pattern_match (request_handlers t0) line)
      as [[h kw]|] eqn:F.
    + destruct (find_handler_first _ _ _ _ F) as (d1 & p & d2 & E0 & Hm & Hnone).
      exists d1, p, h, kw, (d2 ++ (P1, f1) :: between ++ (P2, f2) :: after).
      split; [reflexivity|]. split; [rewrite E0, <- app_assoc; reflexivity|].
      split; [assumption|]. split; [assumption|].
      rewrite E0, length_app. simpl. split; lia.
    + exists (request_handlers t0), P1, f1, kw1, (between ++ (P2, f2) :: after).
      split; [simpl; rewrite Hm1; reflexivity|]. split; [reflexivity|].
      split; [assumption|]. split; [apply find_handler_None; assumption|].
      split; [lia | auto].
  - intros Hnone. unfold dispatch. rewrite E, find_handler_skip by assumption.
    simpl. rewrite Hm1. reflexivity.
Qed.

End Dispatching.

(** ** Instances *)

Lemma register_command_idempotent_witness :
  mpd_commands (register_all (fun _ => true)
      [(of_string "play", true, 1%nat);
       (of_string "play\ (?P<songpos>\d+)$", true, 2%nat)] (@initial nat)) =
    mpd_commands (register (fun _ => true) (@initial nat) (of_string "play", true, 1%nat)) /\
  mpd_commands (register (fun _ => true) (@initial nat) (of_string "play", true, 1%nat)) =
    {[ {| name := of_string "play"; auth_required := true |} ]} ∪ mpd_commands (@initial nat).
Proof.
  apply (register_command_idempotent (handler := nat)).
  repeat constructor.
Defined.

Lemma command_name_of_pattern_witness :
  mpd_commands (handle_request (fun _ => true) (of_string "[\ ]+$") true 1%nat
                  (@initial nat)).1 = mpd_commands (@initial nat) /\
  handle_request (fun _ => true) (of_string "[\ ]+$") true 1%nat (@initial nat) =
    ({| mpd_commands := mpd_commands (@initial nat);
        request_handlers :=
          request_handlers (@initial nat) ++ [(of_string "[\ ]+$", 1%nat)] |},
     Return 1%nat).
Proof.
  destruct (proj1 (command_name_of_pattern (fun _ => true) (@initial nat)
                     (of_string "[\ ]+$") true 1%nat)) as [H1 H2].
  - intros c Hin Hc. unfold lowercase_or_underscore in Hc. simpl in Hin.
    repeat (destruct Hin as [<- | Hin]; [lia|]). destruct Hin.
  - split; [exact H1 | apply H2; reflexivity].
Defined.

Lemma duplicate_pattern_rejected_witness :
  (handle_request (fun _ => true) (of_string "ping") true 2%nat
     (register_all (fun _ => true) [] ping_registered)).2 = Raise ValueError /\
  request_handlers
    (handle_request (fun _ => true) (of_string "ping") true 2%nat
       (register_all (fun _ => true) [] ping_registered)).1 =
    request_handlers (register_all (fun _ => true) [] ping_registered) /\
  dict_get (of_string "ping")
    (request_handlers
       (handle_request (fun _ => true) (of_string "ping") true 2%nat
          (register_all (fun _ => true) [] ping_registered)).1) = Some 1%nat /\
  (true = true ->
   mpd_commands
     (handle_request (fun _ => true) (of_string "ping") true 2%nat
        (register_all (fun _ => true) [] ping_registered)).1 =
   mpd_commands (register_all (fun _ => true) [] ping_registered)).
Proof.
  apply (duplicate_pattern_rejected (fun _ => true) initial (of_string "ping")
           true 1%nat ping_registered [] true 2%nat).
  reflexivity.
Defined.

(** C2, as stated, fails: registering ping again, this time without
    authentication, is refused but leaves one more command in the set. *)
Lemma duplicate_pattern_adds_command :
  handle_request (fun _ => true) (of_string "ping") true 1%nat initial =
    (ping_registered, Return 1%nat) /\
  (handle_request (fun _ => true) (of_string "ping") false 2%nat
     ping_registered).2 = Raise ValueError /\
  mpd_commands
    (handle_request (fun _ => true) (of_string "ping") false 2%nat
       ping_registered).1 <> mpd_commands ping_registered.
Proof.
  split; [reflexivity|]. split; [reflexivity|].
  unfold ping_registered. rewrite !handle_request_commands.
  replace (command_of (of_string "ping")) with (Some (of_string "ping"))
    by reflexivity.
  intros E.
  assert (H : {| name := of_string "ping"; auth_required := false |} ∈
              ({[ {| name := of_string "ping"; auth_required := true |} ]}
                 ∪ mpd_commands (@initial nat) : gset MpdCommand))
    by (rewrite <- E; set_solver).
  simpl in H. set_unfold. destruct H as [H | []]. discriminate H.
Qed.

Lemma dispatch_first_registered_witness :
  dispatch literal_match (register_all (fun _ => true) [] listall_registered)
    (of_string "listall x") = Some (1%nat, tt).
Proof.
  apply (proj2 (proj2 (dispatch_first_registered (fun _ => true) literal_match
           initial (of_string "list") true 1%nat list_registered []
           (of_string "listall") true 2%nat listall_registered []
           (of_string "listall x") tt tt
           eq_refl eq_refl eq_refl eq_refl))).
  intros p h [].
Defined.

(** * Further properties of the tokenizer *)

Lemma strip_no_newline x : ~ In NEWLINE (strip x).
Proof.
  unfold strip. intros H. apply In_take_while in H as [_ H]. discriminate H.
Qed.

Lemma In_strip c x : In c (strip x) -> In c x.
Proof.
  unfold strip. intros H. apply In_take_while in H as [H _].
  apply In_drop_while in H. assumption.
Qed.

Lemma unescape_spec_In c q : In c (unescape_spec q) -> In c q.
Proof.
  remember (length q) as n eqn:Hn. revert q Hn.
  induction n as [n IH] using lt_wf_ind. intros q Hn.
  destruct q as [|d q]; [tauto|]. cbn [unescape_spec].
  destruct (d =? BACKSLASH)%N.
  - destruct q as [|e q]; [simpl; tauto|].
    intros [<- | H]; [simpl; tauto|].
    right. right. apply (IH (length q)); [simpl in Hn; lia | reflexivity | assumption].
  - intros [<- | H]; [simpl; tauto|].
    right. apply (IH (length q)); [simpl in Hn; lia | reflexivity | assumption].
Qed.

Lemma value_In c p : In c (value p) -> In c (render p).
Proof.
  destruct p as [t|q]; simpl; [tauto|].
  intros H. right. apply in_app_iff. left. apply unescape_spec_In. assumption.
Qed.

Lemma command_name_no_newline n : command_name n = true -> ~ In NEWLINE n.
Proof.
  destruct n as [|c n]; [discriminate|]. simpl.
  intros H. apply andb_true_iff in H as [Hc Hn].
  intros [E | Hin]; [subst c; discriminate Hc|].
  induction n as [|d n IH]; [destruct Hin|].
  simpl in Hn. apply andb_true_iff in Hn as [Hd Hn].
  destruct Hin as [E | Hin]; [subst d; discriminate Hd | auto].
Qed.

(** The arguments the loop appends hold no newline. *)
Lemma tokenize_params_no_newline fuel :
  forall result r toks,
    tokenize_params fuel result r = Some (Return toks) ->
    ~ In NEWLINE r -> Forall (fun t => ~ In NEWLINE t) result ->
    (exists args, toks = result ++ args) /\ Forall (fun t => ~ In NEWLINE t) toks.
Proof.
  induction fuel as [|fuel IH]; intros result r toks H Hr Hres.
  - destruct r; [|discriminate H]. injection H as <-.
    split; [exists []; rewrite app_nil_r; reflexivity | assumption].
  - destruct r as [|c s].
    { injection H as <-.
      split; [exists []; rewrite app_nil_r; reflexivity | assumption]. }
    rewrite tokenize_params_eq in H.
    destruct (next_param (c :: s)) as [[arg r']|] eqn:E; [|discriminate H].
    destruct (next_param_inv _ _ _ E) as (p & rest & Er & _ & _ & -> & ->).
    destruct (IH _ _ _ H) as ((args & ->) & Hall).
    + apply strip_no_newline.
    + apply Forall_app. split; [assumption|]. constructor; [|constructor].
      intros Hin. apply Hr. rewrite Er. apply in_app_iff. left.
      apply value_In. assumption.
    + split; [|assumption]. exists (value p :: args).
      rewrite <- app_assoc. reflexivity.
Qed.

(** What [tokenize] returns begins with a command name, the one the line
    begins with, and no token of the result holds a newline. *)
Theorem tokenize_result_shape line toks :
  tokenize line = Some (Return toks) ->
  exists command args rest,
    toks = command :: args /\ line = command ++ rest /\
    command_name command = true /\ delimited rest /\
    Forall (fun t => ~ In NEWLINE t) toks.
Proof.
  unfold tokenize. rewrite tokenize_within_eq.
  destruct (word_split line) as [[n r]|] eqn:E; [|discriminate].
  destruct (word_split_inv _ _ _ E) as (rest & -> & Hn & Hd & ->).
  intros H.
  destruct (tokenize_params_no_newline _ _ _ _ H) as ((args & ->) & Hall).
  - apply strip_no_newline.
  - constructor; [apply command_name_no_newline; assumption | constructor].
  - exists n, args, rest. auto.
Qed.

Lemma tokenize_result_shape_witness :
  exists command args rest,
    [of_string "add"; of_string "a b"] = command :: args /\
    of_string "add " ++ [DQUOTE] ++ of_string "a b" ++ [DQUOTE] = command ++ rest /\
    command_name command = true /\ delimited rest /\
    Forall (fun t => ~ In NEWLINE t) [of_string "add"; of_string "a b"].
Proof.
  apply (tokenize_result_shape
           (of_string "add " ++ [DQUOTE] ++ of_string "a b" ++ [DQUOTE])).
  reflexivity.
Defined.

Lemma escape_escaped_text a : escaped_text (escape a).
Proof.
  induction a as [|c a IH]; simpl; [constructor|].
  destruct (lit DQUOTE c || lit BACKSLASH c) eqn:E.
  - apply escaped_pair; [|assumption].
    apply orb_true_iff in E as [E | E]; apply lit_spec in E; subst; discriminate.
  - apply orb_false_iff in E as [E1 E2].
    apply escaped_plain; [class_arith | class_arith | assumption].
Qed.

Lemma escape_no_newline a : ~ In NEWLINE a -> ~ In NEWLINE (escape a).
Proof.
  induction a as [|c a IH]; simpl; [tauto|]. intros H.
  destruct (lit DQUOTE c || lit BACKSLASH c); simpl;
    intros Hin; repeat destruct Hin as [Hin | Hin];
    try discriminate Hin; try tauto.
Qed.

Lemma unescape_spec_escape a : unescape_spec (escape a) = a.
Proof.
  induction a as [|c a IH]; simpl; [reflexivity|].
  destruct (lit DQUOTE c || lit BACKSLASH c) eqn:E; cbn [unescape_spec].
  - replace (BACKSLASH =? BACKSLASH)%N with true by reflexivity.
    rewrite IH. reflexivity.
  - apply orb_false_iff in E as [_ E]. unfold lit in E. rewrite E, IH.
    reflexivity.
Qed.

Lemma tokenize_quoted_list n args :
  command_name n = true -> Forall (fun a => ~ In NEWLINE a) args ->
  tokenize (n ++ [SPACE] ++ join [SPACE] (map quote args)) =
  Some (Return (n :: args)).
Proof.
  intros Hn Hargs.
  pose proof (tokenize_rendered n (map (fun a => Quoted (escape a)) args) Hn) as H.
  rewrite !map_map in H. simpl in H.
  replace (map (fun a => unescape_spec (escape a)) args) with args in H.
  - apply H. clear H.
    induction Hargs as [|a args Ha _ IH]; simpl; constructor; [|assumption].
    split; [apply escape_escaped_text | apply escape_no_newline; assumption].
  - clear. induction args as [|a args IH]; simpl; [reflexivity|].
    rewrite unescape_spec_escape, <- IH. reflexivity.
Qed.

(** Every list of arguments without newlines can be written on a line:
    the command name followed by the arguments, each escaped and between
    double quotes, tokenizes to the name and these arguments. *)
Theorem tokenize_quote_round_trip n args :
  command_name n = true -> Forall (fun a => ~ In NEWLINE a) args ->
  tokenize (n ++ [SPACE] ++ join [SPACE] (map quote args)) =
  Some (Return (n :: args)).
Proof. apply tokenize_quoted_list. Qed.

Lemma tokenize_quote_round_trip_witness :
  tokenize (of_string "add" ++ [SPACE]
            ++ join [SPACE] (map quote
                 [of_string "a b"; [DQUOTE; BACKSLASH; 1]%N; []])) =
  Some (Return [of_string "add"; of_string "a b"; [DQUOTE; BACKSLASH; 1]%N; []]).
Proof.
  apply tokenize_quote_round_trip; [reflexivity|].
  repeat constructor; simpl; intros H;
    repeat destruct H as [H | H]; try discriminate H; destruct H.
Defined.

(** A result of [tokenize] written back with every argument quoted
    tokenizes to the same result. *)
Theorem tokenize_requoted line command args :
  tokenize line = Some (Return (command :: args)) ->
  tokenize (command ++ [SPACE] ++ join [SPACE] (map quote args)) =
  Some (Return (command :: args)).
Proof.
  unfold tokenize at 1. rewrite tokenize_within_eq.
  destruct (word_split line) as [[n r]|] eqn:E; [|discriminate].
  destruct (word_split_inv _ _ _ E) as (rest & -> & Hn & Hd & ->).
  intros H.
  destruct (tokenize_params_no_newline _ _ _ _ H) as ((args' & Eq) & Hall).
  - apply strip_no_newline.
  - constructor; [apply command_name_no_newline; assumption | constructor].
  - injection Eq as <- <-. inversion Hall; subst.
    apply tokenize_quoted_list; assumption.
Qed.

Lemma tokenize_requoted_witness :
  tokenize (of_string "find" ++ [SPACE]
            ++ join [SPACE] (map quote [of_string "artist"; of_string "a b"])) =
  Some (Return [of_string "find"; of_string "artist"; of_string "a b"]).
Proof.
  apply (tokenize_requoted
           (of_string "find  artist " ++ [DQUOTE] ++ of_string "a b" ++ [DQUOTE])).
  reflexivity.
Defined.

Lemma blank_whitespace c : blank c = true -> whitespace c = true /\ c <> NEWLINE.
Proof.
  unfold blank. intros H. apply andb_true_iff in H as [Hw Hd].
  split; [assumption | apply dot_spec; assumption].
Qed.

Lemma forallb_blank_no_newline w : forallb blank w = true -> ~ In NEWLINE w.
Proof.
  induction w as [|c w IH]; simpl; [tauto|].
  intros H. apply andb_true_iff in H as [Hc Hw].
  intros [E | Hin]; [|exact (IH Hw Hin)].
  apply blank_whitespace in Hc as [_ Hc]. congruence.
Qed.

Lemma forallb_blank_whitespace w : forallb blank w = true -> forallb whitespace w = true.
Proof.
  apply forallb_impl. intros c Hc. apply blank_whitespace in Hc. tauto.
Qed.

Lemma separator_spec w :
  separator w = true ->
  forallb blank w = true /\
  exists c r, w = c :: r /\ whitespace c = true /\ unquoted_char c = false.
Proof.
  destruct w as [|c r]; [discriminate|]. unfold separator.
  intros H. apply andb_true_iff in H as [Hu Hb]. split; [assumption|].
  exists c, r. split; [reflexivity|]. split.
  - simpl in Hb. apply andb_true_iff in Hb as [Hc _].
    apply blank_whitespace in Hc. tauto.
  - apply negb_true_iff. assumption.
Qed.

Lemma trailing_blank trailing :
  trailing = [] \/ separator trailing = true -> forallb blank trailing = true.
Proof.
  intros [-> | H]; [reflexivity | apply separator_spec in H; tauto].
Qed.

(** Skipping a run of whitespace before text that begins with something
    else. *)
Lemma strip_whitespace_app w x :
  forallb whitespace w = true -> no_leading_space x -> ~ In NEWLINE x ->
  strip (w ++ x) = x.
Proof.
  intros Hw Hx Hn. unfold strip.
  rewrite drop_while_app by (assumption || exact Hx).
  apply take_while_dot. assumption.
Qed.

Lemma strip_all_whitespace w : forallb whitespace w = true -> strip w = [].
Proof.
  intros Hw. unfold strip.
  pose proof (drop_while_app whitespace w [] Hw) as H.
  rewrite app_nil_r in H. rewrite H; [reflexivity | discriminate].
Qed.

Lemma spaced_no_newline ps trailing :
  Forall spaced_ok ps -> forallb blank trailing = true ->
  ~ In NEWLINE (spaced ps ++ trailing).
Proof.
  induction 1 as [|[w p] ps (Hw & Hp) _ IH]; intros Ht; simpl.
  - apply forallb_blank_no_newline. assumption.
  - simpl in Hw, Hp. apply separator_spec in Hw as (Hw & _).
    rewrite <- !app_assoc. intros Hin.
    apply in_app_iff in Hin as [Hin | Hin];
      [exact (forallb_blank_no_newline w Hw Hin)|].
    apply in_app_iff in Hin as [Hin | Hin];
      [exact (render_no_newline p Hp Hin) | exact (IH Ht Hin)].
Qed.

(** What follows the command name or a parameter begins with a whitespace
    that cannot be part of an unquoted token. *)
Lemma spaced_head ps trailing :
  Forall spaced_ok ps -> trailing = [] \/ separator trailing = true ->
  forall c r, spaced ps ++ trailing = c :: r ->
    whitespace c = true /\ unquoted_char c = false.
Proof.
  intros Hps Ht c r E. destruct Hps as [|[w p] ps (Hw & _) _]; simpl in E.
  - destruct Ht as [-> | Ht]; [discriminate E|].
    apply separator_spec in Ht as (_ & c' & r' & -> & H).
    injection E as <- _. assumption.
  - simpl in Hw. apply separator_spec in Hw as (_ & c' & r' & -> & H).
    simpl in E. injection E as <- _. assumption.
Qed.

Lemma tokenize_params_spaced ps trailing :
  Forall spaced_ok ps -> trailing = [] \/ separator trailing = true ->
  forall fuel result, length ps <= fuel ->
    tokenize_params fuel result (strip (spaced ps ++ trailing)) =
    Some (Return (result ++ map (fun wp => value wp.2) ps)).
Proof.
  intros Hps Ht. pose proof (trailing_blank trailing Ht) as Hb.
  induction Hps as [|[w p] ps (Hw & Hp) Hps IH]; intros fuel result Hfuel.
  - simpl. rewrite strip_all_whitespace by (apply forallb_blank_whitespace; assumption).
    rewrite app_nil_r. destruct fuel; reflexivity.
  - cbn [spaced]. rewrite <- !app_assoc.
    simpl in Hw, Hp. apply separator_spec in Hw as (Hw & _).
    rewrite strip_whitespace_app.
    + destruct (render_cons p Hp) as (c & x & Ec).
      destruct fuel as [|fuel]; [simpl in Hfuel; lia|].
      rewrite Ec. cbn [app]. rewrite tokenize_params_eq.
      change (c :: x ++ spaced ps ++ trailing)
        with ((c :: x) ++ spaced ps ++ trailing).
      rewrite <- Ec, next_param_render.
      * rewrite IH by (simpl in Hfuel; lia). simpl.
        rewrite <- app_assoc. reflexivity.
      * apply well_formed_token_form. assumption.
      * apply spaced_head; assumption.
    + apply forallb_blank_whitespace. assumption.
    + intros c r E. destruct (render_cons p Hp) as (c' & x & Ec).
      rewrite Ec in E. injection E as <- _.
      apply (render_no_leading_space p Hp c' x Ec).
    + intros Hin. apply in_app_iff in Hin as [Hin | Hin];
        [exact (render_no_newline p Hp Hin)|].
      exact (spaced_no_newline ps trailing Hps Hb Hin).
Qed.

Lemma length_spaced ps : Forall spaced_ok ps -> length ps <= length (spaced ps).
Proof.
  induction 1 as [|[w p] ps (Hw & _) _ IH]; simpl; [lia|].
  simpl in Hw. rewrite !length_app. destruct w; [discriminate Hw | simpl; lia].
Qed.

(** The amount of whitespace does not matter: parameters may be separated
    by any runs of blanks (whitespace other than the newline) that begin
    with a character an unquoted token cannot hold, such as the space or
    the tab, and be followed by such a run; the result is the command name
    and the arguments the parameters stand for. *)
Theorem tokenize_any_spacing n ps trailing :
  command_name n = true -> Forall spaced_ok ps ->
  trailing = [] \/ separator trailing = true ->
  tokenize (n ++ spaced ps ++ trailing) =
  Some (Return (n :: map (fun wp => value wp.2) ps)).
Proof.
  intros Hn Hps Ht. unfold tokenize. rewrite tokenize_within_eq.
  rewrite word_split_command.
  - apply tokenize_params_spaced; [assumption | assumption |].
    rewrite !length_app. pose proof (length_spaced ps Hps). lia.
  - assumption.
  - destruct (spaced ps ++ trailing) as [|c r] eqn:E; [reflexivity|].
    simpl. apply (spaced_head ps trailing Hps Ht c r E).
Qed.

Lemma tokenize_any_spacing_witness :
  tokenize (of_string "find"
            ++ spaced [([SPACE; TAB], Bare (of_string "artist"));
                       ([SPACE; 160; SPACE]%N, Quoted (of_string "a b"))]
            ++ [TAB; 8195]%N) =
  Some (Return [of_string "find"; of_string "artist"; of_string "a b"]).
Proof.
  apply (tokenize_any_spacing (of_string "find")
           [([SPACE; TAB], Bare (of_string "artist"));
            ([SPACE; 160; SPACE]%N, Quoted (of_string "a b"))]
           [TAB; 8195]%N); [reflexivity | | right; reflexivity].
  repeat constructor; try discriminate.
  simpl. intros H. repeat destruct H as [H | H]; try discriminate H. destruct H.
Defined.

(** With enough turns allowed, the loop gives the same result. *)
Lemma tokenize_params_fuel fuel fuel' result r :
  length r <= fuel -> length r <= fuel' ->
  tokenize_params fuel result r = tokenize_params fuel' result r.
Proof.
  intros H H'.
  destruct (tokenize_params_total (length r) r result (Nat.le_refl _))
    as (o & Ho & _).
  rewrite (Ho fuel H), (Ho fuel' H'). reflexivity.
Qed.

(** Once the parameters have begun, what follows a newline is not read:
    the line is tokenized as if it ended before the newline. *)
Theorem tokenize_ignores_after_newline n w c rest junk :
  command_name n = true ->
  w <> [] -> forallb whitespace w = true ->
  whitespace c = false -> ~ In NEWLINE (c :: rest) ->
  tokenize (n ++ w ++ (c :: rest) ++ NEWLINE :: junk) =
  tokenize (n ++ w ++ c :: rest).
Proof.
  intros Hn Hne Hw Hc Hnl. unfold tokenize. rewrite !tokenize_within_eq.
  assert (Hd : forall x, delimitedb (w ++ x) = true).
  { intros x. destruct w as [|d w]; [congruence|]. simpl in *.
    apply andb_true_iff in Hw. tauto. }
  rewrite !word_split_command by (assumption || apply Hd).
  assert (E1 : strip (w ++ c :: rest) = c :: rest).
  { apply strip_whitespace_app; [assumption | | assumption].
    intros c' r [= <- _]. assumption. }
  assert (E2 : strip (w ++ (c :: rest) ++ NEWLINE :: junk) = c :: rest).
  { unfold strip. rewrite drop_while_app; [|assumption|].
    - apply take_while_app; [|intros ? ? [= <- _]; reflexivity].
      clear - Hnl. induction (c :: rest) as [|d l IH]; [reflexivity|].
      simpl. replace (dot d) with true; [apply IH; simpl in Hnl; tauto|].
      symmetry. apply dot_spec. simpl in Hnl. intuition.
    - intros c' r [= <- _]. assumption. }
  rewrite E1, E2. apply tokenize_params_fuel.
  - rewrite !length_app. simpl. lia.
  - rewrite !length_app. simpl. lia.
Qed.

Lemma tokenize_ignores_after_newline_witness :
  tokenize (of_string "add" ++ [SPACE] ++ of_string "a b"
            ++ NEWLINE :: DQUOTE :: of_string "x") =
  tokenize (of_string "add" ++ [SPACE] ++ of_string "a b").
Proof.
  apply (tokenize_ignores_after_newline (of_string "add") [SPACE] 97%N
           (of_string " b") (DQUOTE :: of_string "x"));
    [reflexivity | discriminate | reflexivity | reflexivity |].
  simpl. intros H. repeat destruct H as [H | H]; try discriminate H. destruct H.
Defined.






Lemma drop_while_app_nonempty p (a b : str) :
  drop_while p a <> [] -> drop_while p (a ++ b) = drop_while p a ++ b.
Proof.
  induction a as [|c a IH]; simpl; [congruence|].
  destruct (p c); [assumption | reflexivity].
Qed.

Lemma drop_while_app_empty p (a b : str) :
  drop_while p a = [] -> drop_while p (a ++ b) = drop_while p b.
Proof.
  induction a as [|c a IH]; simpl; [reflexivity|].
  destruct (p c); [assumption | discriminate].
Qed.

Lemma longest_delimited_extend p s y :
  p SPACE = false ->
  longest_delimited p (s ++ SPACE :: y) =
  (fun rr => (rr.1, rr.2 ++ SPACE :: y)) <$> longest_delimited p s.
Proof.
  intros Hp. induction s as [|c s IH]; simpl.
  - rewrite Hp. reflexivity.
  - rewrite IH. destruct (p c).
    + destruct (longest_delimited p s) as [[run rest]|]; simpl; [reflexivity|].
      destruct (whitespace c); reflexivity.
    + destruct (whitespace c); reflexivity.
Qed.

Lemma delimitedb_extend rest y :
  delimitedb rest = true -> delimitedb (rest ++ SPACE :: y) = true.
Proof. destruct rest; [reflexivity | simpl; auto]. Qed.

(** A parameter that is read is read the same when a space and more text
    are added at the end of the string. *)
Lemma next_param_extend s arg r y :
  next_param s = Some (arg, r) ->
  exists used rest,
    s = used ++ rest /\ used <> [] /\ r = strip rest /\
    next_param (s ++ SPACE :: y) = Some (arg, strip (rest ++ SPACE :: y)).
Proof.
  unfold next_param, param_split. destruct s as [|c s]; [discriminate|].
  cbn [app]. destruct (unquoted_char c).
  - rewrite longest_delimited_extend by reflexivity.
    destruct (longest_delimited unquoted_char s) as [[run rest]|] eqn:L;
      [|discriminate].
    intros [= <- <-]. exists (c :: run), rest.
    rewrite (longest_delimited_app _ _ _ _ L).
    split; [reflexivity|]. split; [discriminate|]. split; reflexivity.
  - destruct (lit DQUOTE c) eqn:Q; [|discriminate].
    destruct (quoted_split s) as [[body rest]|] eqn:S; [|discriminate].
    destruct (delimitedb rest) eqn:D; [|discriminate].
    intros [= <- <-]. exists (c :: body ++ [DQUOTE]), rest.
    pose proof (quoted_split_app _ _ _ S) as ->.
    pose proof (quoted_split_escaped_inv _ _ _ S) as Hb.
    split; [cbn [app]; rewrite <- app_assoc; reflexivity|].
    split; [discriminate|]. split; [reflexivity|].
    rewrite <- app_assoc. cbn [app].
    rewrite quoted_split_escaped, delimitedb_extend by assumption.
    reflexivity.
Qed.

Lemma params_append p :
  well_formed p ->
  forall fuel result rest toks,
    ~ In NEWLINE rest ->
    tokenize_params fuel result (strip rest) = Some (Return toks) ->
    forall fuel', length rest < fuel' ->
      tokenize_params fuel' result (strip (rest ++ SPACE :: render p)) =
      Some (Return (toks ++ [value p])).
Proof.
  intros Hp.
  assert (Hnl : forall rest, ~ In NEWLINE rest ->
            ~ In NEWLINE (rest ++ SPACE :: render p)).
  { intros rest H Hin. apply in_app_iff in Hin as [Hin | [E | Hin]];
      [tauto | discriminate E | exact (render_no_newline p Hp Hin)]. }
  assert (Hbase : forall rest result fuel',
            ~ In NEWLINE rest -> strip rest = [] -> 0 < fuel' ->
            tokenize_params fuel' result (strip (rest ++ SPACE :: render p)) =
            Some (Return (result ++ [value p]))).
  { intros rest result fuel' Hr E Hf.
    rewrite strip_drop_while in E by assumption.
    rewrite strip_drop_while by (apply Hnl; assumption).
    rewrite drop_while_app_empty by assumption.
    replace (drop_while whitespace (SPACE :: render p)) with (render p).
    2:{ simpl. destruct (render_cons p Hp) as (d & x & Ed).
        rewrite Ed. simpl.
        rewrite (render_no_leading_space p Hp d x Ed). reflexivity. }
    destruct (render_cons p Hp) as (d & x & Ed).
    destruct fuel' as [|fuel']; [lia|].
    assert (Hn : next_param (render p ++ []) = Some (value p, strip []))
      by (apply next_param_render;
          [apply well_formed_token_form; assumption | discriminate]).
    rewrite app_nil_r, Ed in Hn. rewrite Ed, tokenize_params_eq, Hn.
    rewrite strip_nil. destruct fuel'; reflexivity. }
  induction fuel as [|fuel IH]; intros result rest toks Hr H fuel' Hf.
  - destruct (strip rest) as [|c s] eqn:E; [|discriminate H].
    injection H as <-. apply Hbase; [assumption | assumption | lia].
  - destruct (strip rest) as [|c s] eqn:E.
    { injection H as <-. apply Hbase; [assumption | assumption | lia]. }
    rewrite tokenize_params_eq in H.
    destruct (next_param (c :: s)) as [[arg r']|] eqn:En; [|discriminate H].
    destruct (next_param_extend _ _ _ (render p) En)
      as (used & rest1 & Er & Hu & -> & Hext).
    assert (Hr1 : ~ In NEWLINE rest1).
    { intros Hin. apply Hr. apply In_strip. rewrite E, Er.
      apply in_app_iff. right. assumption. }
    assert (Estrip : strip (rest ++ SPACE :: render p) =
                     (c :: s) ++ SPACE :: render p).
    { rewrite strip_drop_while by (apply Hnl; assumption).
      rewrite strip_drop_while in E by assumption.
      rewrite drop_while_app_nonempty by (rewrite E; discriminate).
      rewrite E. reflexivity. }
    assert (Hlen : length rest1 < length rest).
    { pose proof (length_strip rest) as Hs. rewrite E, Er in Hs.
      rewrite length_app in Hs. destruct used; [congruence | simpl in Hs; lia]. }
    rewrite Estrip.
    destruct fuel' as [|fuel']; [lia|].
    cbn [app]. rewrite tokenize_params_eq.
    change (c :: s ++ SPACE :: render p) with ((c :: s) ++ SPACE :: render p).
    rewrite Hext. apply (IH _ _ _ Hr1 H). lia.
Qed.

(** Adding a parameter at the end of a line that tokenizes adds its
    argument at the end of the result. *)
Theorem tokenize_append_parameter line toks p :
  tokenize line = Some (Return toks) -> ~ In NEWLINE line -> well_formed p ->
  tokenize (line ++ SPACE :: render p) = Some (Return (toks ++ [value p])).
Proof.
  unfold tokenize. rewrite !tokenize_within_eq.
  destruct (word_split line) as [[n r]|] eqn:E; [|discriminate].
  destruct (word_split_inv _ _ _ E) as (rest & -> & Hn & Hd & ->).
  intros H Hnl Hp. rewrite <- app_assoc.
  rewrite word_split_command.
  - apply (params_append p Hp _ _ _ _) with (2 := H).
    + intros Hin. apply Hnl. apply in_app_iff. right. assumption.
    + rewrite !length_app. simpl. lia.
  - assumption.
  - destruct Hd as [-> | (e & r & -> & He)]; [reflexivity | assumption].
Qed.

Lemma tokenize_append_parameter_witness :
  tokenize (of_string "find artist  " ++ SPACE :: render (Quoted (of_string "a b"))) =
  Some (Return ([of_string "find"; of_string "artist"]
                ++ [value (Quoted (of_string "a b"))])).
Proof.
  apply tokenize_append_parameter; [reflexivity | |].
  - simpl. intros H. repeat destruct H as [H | H]; try discriminate H. destruct H.
  - split; [repeat constructor; discriminate|].
    simpl. intros H. repeat destruct H as [H | H]; try discriminate H. destruct H.
Defined.

(** * Further properties of the tables *)

Section Tables.
Context {handler : Type} (compiles : str -> bool).
Implicit Types (t : tables handler) (d : dict handler) (r : registration handler).

Lemma dict_get_None_keys k d : dict_get k d = None <-> ~ In k (map fst d).
Proof.
  induction d as [|[k' v] d IH]; simpl; [tauto|].
  destruct (decide (k = k')) as [-> | Hne].
  - split; [discriminate | tauto].
  - rewrite IH. split; [intros H [E | Hin]; [congruence | tauto] | tauto].
Qed.

Lemma dict_get_singleton k k' (v : handler) :
  dict_get k [(k', v)] = if decide (k = k') then Some v else None.
Proof. reflexivity. Qed.

(** A successful registration can be looked up, and changes the handler
    of no other pattern. *)
Theorem handle_request_lookup t p a f t' f' q :
  handle_request compiles p a f t = (t', Return f') ->
  dict_get p (request_handlers t') = Some f /\
  (q <> p -> dict_get q (request_handlers t') = dict_get q (request_handlers t)).
Proof.
  intros H. destruct (handle_request_Return _ _ _ _ _ _ _ H) as (_ & Hfresh & _ & ->).
  rewrite !dict_get_app, !dict_get_singleton. unfold dict_has in Hfresh.
  destruct (dict_get p (request_handlers t)); [discriminate Hfresh|].
  split.
  - destruct (decide (p = p)); [reflexivity | congruence].
  - intros Hq. destruct (decide (q = p)); [congruence|].
    destruct (dict_get q (request_handlers t)); reflexivity.
Qed.

(** No call replaces or removes a registered handler. *)
Theorem registered_handler_kept t rs q v :
  dict_get q (request_handlers t) = Some v ->
  dict_get q (request_handlers (register_all compiles rs t)) = Some v.
Proof.
  intros H. destruct (register_all_handlers compiles rs t) as (new & ->).
  rewrite dict_get_app, H. reflexivity.
Qed.

(** The command set holds what it held and the command of every call made,
    of the calls that failed as well. *)
Theorem registered_commands t rs c :
  c ∈ mpd_commands (register_all compiles rs t) <->
  c ∈ mpd_commands t \/
  exists r, In r rs /\ command_of r.1.1 = Some (name c) /\ r.1.2 = auth_required c.
Proof.
  revert t. induction rs as [|r rs IH]; intros t.
  - simpl. split; [auto | intros [H | (r & [] & _)]; assumption].
  - rewrite register_all_cons, IH, register_commands. split.
    + intros [H | (r' & Hin & Hr')].
      * destruct (command_of r.1.1) as [nm|] eqn:E; [|auto].
        apply elem_of_union in H as [H | H]; [|auto].
        apply elem_of_singleton in H. subst c. right. exists r. simpl. auto.
      * right. exists r'. simpl. auto.
    + intros [H | (r' & [<- | Hin] & Hnm & Ha)].
      * left. destruct (command_of r.1.1); [set_solver | assumption].
      * left. rewrite Hnm. apply elem_of_union. left.
        apply elem_of_singleton. destruct c; simpl in *. subst. reflexivity.
      * right. exists r'. auto.
Qed.

Lemma dict_get_register_all rs :
  forall t p,
    dict_get p (request_handlers (register_all compiles rs t)) =
    match dict_get p (request_handlers t) with
    | Some v => Some v
    | None => if compiles p then first_call p rs else None
    end.
Proof.
  induction rs as [|[[p' a] f] rs IH]; intros t p.
  - simpl. destruct (dict_get p (request_handlers t)); [reflexivity|].
    destruct (compiles p); reflexivity.
  - rewrite register_all_cons, IH. unfold register.
    rewrite handle_request_handlers. cbn [fst snd].
    unfold first_call. cbn [find fst snd].
    destruct (dict_get p (request_handlers t)) as [v|] eqn:G.
    + destruct (compiles p' && _); [|rewrite G; reflexivity].
      rewrite dict_get_app, G. reflexivity.
    + destruct (decide (p' = p)) as [-> | Hne].
      * rewrite bool_decide_eq_true_2 by reflexivity.
        unfold dict_has. rewrite G.
        destruct (compiles p); cbn [andb negb].
        -- rewrite dict_get_app, G, dict_get_singleton.
           destruct (decide (p = p)); [reflexivity | congruence].
        -- rewrite G. reflexivity.
      * rewrite bool_decide_eq_false_2 by assumption.
        destruct (compiles p' && _); [|rewrite G; reflexivity].
        rewrite dict_get_app, G, dict_get_singleton.
        destruct (decide (p = p')); [congruence | reflexivity].
Qed.

(** After any run of calls on the empty tables, a pattern maps to the
    handler of the first call made for it, and a pattern that does not
    compile is never registered. *)
Theorem first_registration_wins rs p :
  dict_get p (request_handlers (register_all compiles rs (@initial handler))) =
  if compiles p then first_call p rs else None.
Proof. rewrite dict_get_register_all. reflexivity. Qed.

End Tables.

Lemma handle_request_lookup_witness :
  dict_get (of_string "list") (request_handlers listall_registered) = Some 1%nat.
Proof.
  apply (proj2 (handle_request_lookup (fun _ => true) list_registered
                  (of_string "listall") true 2%nat listall_registered 2%nat
                  (of_string "list") eq_refl)).
  discriminate.
Defined.

Lemma registered_handler_kept_witness :
  dict_get (of_string "ping")
    (request_handlers
       (register_all (fun _ => true)
          [(of_string "ping", false, 2%nat); (of_string "pong", true, 3%nat)]
          ping_registered)) = Some 1%nat.
Proof. apply registered_handler_kept. reflexivity. Defined.

Lemma registered_commands_witness :
  {| name := of_string "ping"; auth_required := false |} ∈
  mpd_commands
    (register_all (fun _ => true)
       [(of_string "ping", true, 1%nat); (of_string "ping", false, 2%nat)]
       (@initial nat)).
Proof.
  apply registered_commands. right.
  exists (of_string "ping", false, 2%nat).
  split; [right; left; reflexivity | split; reflexivity].
Defined.
